(** * neo-alloc: a recency-ordered, first-fit, non-splitting, non-coalescing
      allocator (src/neo-alloc.c), embedded as state-passing Rocq functions.

    Platform: LP64 (gcc, Linux).  pointers are 8 bytes wide, [size_t] and
    [intptr_t] are 64 bits wide, [sizeof(header_s) = 16], memory is
    little-endian and byte addressed.  Unsigned 64-bit arithmetic wraps;
    arithmetic on [void*] is byte granular (GNU C), arithmetic on
    [header_s*] is scaled by [sizeof(header_s)]. *)

From Stdlib Require Import ZArith Lia List String Ascii Bool.
Import ListNotations.
Local Open Scope string_scope.
Local Open Scope Z_scope.

(* ================================================================== *)
(** ** Constants and macros *)

Definition NULL : Z := 0.
Definition WORD_SIZE : Z := 8.
Definition DOUBLE_WORD_SIZE : Z := WORD_SIZE * 2.
Definition KB (size : Z) : Z := size * 1024.
Definition MB (size : Z) : Z := KB size * 1024.
Definition GB (size : Z) : Z := MB size * 1024.
Definition HEAP_SIZE : Z := GB 2.

(** [sizeof(header_s)]: a [size_t] followed by a pointer. *)
Definition sizeof_header_s : Z := 16.
(** Byte offsets of the two fields of [header_s]. *)
Definition off_size : Z := 0.
Definition off_next : Z := 8.

(** [MAP_FAILED] is [(void* )-1]. *)
Definition MAP_FAILED : Z := 2 ^ 64 - 1.

(** Wrap-around of 64-bit unsigned arithmetic. *)
Definition wrap64 (x : Z) : Z := x mod 2 ^ 64.

(** Conversion [size_t -> long] (two's complement). *)
Definition to_long (x : Z) : Z := if x <? 2 ^ 63 then x else x - 2 ^ 64.

(** [p + k] for [void* p] (GNU extension: byte granular). *)
Definition void_ptr_add (p k : Z) : Z := wrap64 (p + k).

(** [p + k] for [header_s* p]: scaled by the size of the pointee. *)
Definition header_ptr_add (p k : Z) : Z := wrap64 (p + k * sizeof_header_s).

(* ================================================================== *)
(** ** Machine state *)

(** Byte-addressed memory; each cell holds a value in [0, 256). *)
Definition memory : Type := Z -> Z.

(** The four globals of the allocator, the contents of memory, and the text
    written so far to standard output by [debug]. *)
Record state : Type := mkState {
  free_ptr       : Z;       (* static void*     free_ptr  = NULL *)
  start_ptr      : Z;       (* static intptr_t  start_ptr        *)
  end_ptr        : Z;       (* static intptr_t  end_ptr          *)
  free_list_head : Z;       (* static header_s* free_list_head = NULL *)
  mem            : memory;
  out            : string
}.

Definition set_free_ptr (v : Z) (w : state) : state :=
  mkState v (start_ptr w) (end_ptr w) (free_list_head w) (mem w) (out w).
Definition set_start_ptr (v : Z) (w : state) : state :=
  mkState (free_ptr w) v (end_ptr w) (free_list_head w) (mem w) (out w).
Definition set_end_ptr (v : Z) (w : state) : state :=
  mkState (free_ptr w) (start_ptr w) v (free_list_head w) (mem w) (out w).
Definition set_free_list_head (v : Z) (w : state) : state :=
  mkState (free_ptr w) (start_ptr w) (end_ptr w) v (mem w) (out w).
Definition set_mem (m : memory) (w : state) : state :=
  mkState (free_ptr w) (start_ptr w) (end_ptr w) (free_list_head w) m (out w).
Definition set_out (s : string) (w : state) : state :=
  mkState (free_ptr w) (start_ptr w) (end_ptr w) (free_list_head w) (mem w) s.

(** The state of a process before the first call: zero-initialised statics,
    nothing mapped, nothing printed. *)
Definition initial_state : state :=
  mkState NULL 0 0 NULL (fun _ => 0) "".

(** Two states agree on everything the allocator owns (globals and memory);
    only the diagnostic output may differ. *)
Definition same_allocator (w w' : state) : Prop :=
  free_ptr w' = free_ptr w /\ start_ptr w' = start_ptr w /\
  end_ptr w' = end_ptr w /\ free_list_head w' = free_list_head w /\
  mem w' = mem w.

(* ================================================================== *)
(** ** Outcomes of a call *)

(** A call returns a value in a new state, terminates the process
    ([exit(1)]), runs for ever, or has undefined behaviour (an access outside
    the mapped heap, such as a store through a null pointer, or a library call
    outside its contract). *)
Inductive outcome (A : Type) : Type :=
| Ret (a : A) (w : state)
| Exit (code : Z) (w : state)
| Diverge
| Undefined.
Arguments Ret {A} a w.
Arguments Exit {A} code w.
Arguments Diverge {A}.
Arguments Undefined {A}.

Definition M (A : Type) : Type := state -> outcome A.

Definition ret {A} (a : A) : M A := fun w => Ret a w.

Definition bind {A B} (m : M A) (k : A -> M B) : M B :=
  fun w => match m w with
           | Ret a w' => k a w'
           | Exit c w' => Exit c w'
           | Diverge => Diverge
           | Undefined => Undefined
           end.

Notation "x <- m ;; k" := (bind m (fun x => k))
  (at level 61, m at next level, right associativity).
Notation "m ;; k" := (bind m (fun _ => k))
  (at level 61, right associativity).

Definition get {A} (f : state -> A) : M A := fun w => Ret (f w) w.
Definition modify (f : state -> state) : M unit := fun w => Ret tt (f w).
Definition undefined {A} : M A := fun _ => Undefined.
Definition exit {A} (code : Z) : M A := fun w => Exit code w.

(* ================================================================== *)
(** ** Memory accesses *)

(** Byte [k] of the little-endian representation of [v]. *)
Definition byte_of (v k : Z) : Z := (v / 2 ^ (8 * k)) mod 256.

Definition read64 (m : memory) (a : Z) : Z :=
  m a + 2 ^ 8 * m (a + 1) + 2 ^ 16 * m (a + 2) + 2 ^ 24 * m (a + 3)
  + 2 ^ 32 * m (a + 4) + 2 ^ 40 * m (a + 5) + 2 ^ 48 * m (a + 6)
  + 2 ^ 56 * m (a + 7).

Definition write64 (m : memory) (a v : Z) : memory :=
  fun x => if (a <=? x) && (x <? a + 8) then byte_of v (x - a) else m x.

Definition write8 (m : memory) (a v : Z) : memory :=
  fun x => if x =? a then v mod 256 else m x.

(** [n] bytes starting at [a] lie inside the mapped heap. *)
Definition mapped (w : state) (a n : Z) : bool :=
  (start_ptr w <=? a) && (a + n <=? end_ptr w).

(** Load and store of a 64-bit field. *)
Definition load64 (a : Z) : M Z :=
  fun w => if mapped w a 8 then Ret (read64 (mem w) a) w else Undefined.

Definition store64 (a v : Z) : M unit :=
  fun w => if mapped w a 8 then Ret tt (set_mem (write64 (mem w) a v) w)
           else Undefined.

(** A store of one byte by the client through a payload pointer. *)
Definition store8 (a v : Z) : M unit :=
  fun w => if mapped w a 1 then Ret tt (set_mem (write8 (mem w) a v) w)
           else Undefined.

(** [memset(p, 0, n)]. *)
Definition memset_zero (p n : Z) : M unit :=
  fun w =>
    if n =? 0 then Ret tt w
    else if mapped w p n then
      Ret tt (set_mem (fun x => if (p <=? x) && (x <? p + n) then 0
                                else mem w x) w)
    else Undefined.

(** [memcpy(dst, src, n)]; overlapping regions are outside its contract. *)
Definition memcpy (dst src n : Z) : M unit :=
  fun w =>
    if n =? 0 then Ret tt w
    else if mapped w dst n && mapped w src n
            && ((dst + n <=? src) || (src + n <=? dst)) then
      Ret tt (set_mem (fun x => if (dst <=? x) && (x <? dst + n)
                                then mem w (src + (x - dst))
                                else mem w x) w)
    else Undefined.

(* ================================================================== *)
(** ** Diagnostics: [debug] and [debug_int] *)

(** [debug(msg)]: the characters of [msg] up to its terminator are written to
    standard output. *)
Definition debug (msg : string) : M unit :=
  modify (fun w => set_out (out w ++ msg)%string w).

Definition NUL : ascii := Ascii.zero.

(** Conversion of an integer to [char]. *)
Definition char_of_Z (c : Z) : ascii := ascii_of_N (Z.to_N (c mod 256)).

(** [buffer[i] = c]. *)
Fixpoint array_set (buffer : list ascii) (i : nat) (c : ascii) : list ascii :=
  match buffer, i with
  | [], _ => []
  | _ :: t, O => c :: t
  | h :: t, S i' => h :: array_set t i' c
  end.

(** The digit loop of [debug_int], by recursion on the index [i], which the
    loop decrements once per iteration.  [None]: the loop would store below
    [buffer[0]]. *)
Fixpoint digits_loop (i : nat) (value : Z) (buffer : list ascii)
  : option (nat * list ascii) :=
  if value =? 0 then Some (i, buffer)
  else match i with
       | O => None
       | S i' =>
           let digit := Z.rem value 10 in
           digits_loop i' (Z.quot value 10)
                       (array_set buffer i' (char_of_Z (digit + 48)))
       end.

(** The null-terminated string that starts at [&buffer[i]], as [debug] reads
    it.  [None]: no terminator inside the array. *)
Fixpoint c_string_at (buffer : list ascii) (i : nat) : option string :=
  match buffer with
  | [] => None
  | c :: t =>
      match i with
      | S i' => c_string_at t i'
      | O => if Ascii.eqb c NUL then Some EmptyString
             else match c_string_at t O with
                  | Some s => Some (String c s)
                  | None => None
                  end
      end
  end.

(** The text [debug_int(value)] hands to [debug]; [stack] is the content of
    the uninitialised 16-byte [buffer]. *)
Definition debug_int_text (stack : list ascii) (value : Z) : option string :=
  match digits_loop 15 value (array_set stack 15 NUL) with
  | Some (i, buffer) => c_string_at buffer i
  | None => None
  end.

Definition blank_stack : list ascii := repeat "?"%char 16.

Definition debug_int (value : Z) : M unit :=
  match debug_int_text blank_stack value with
  | Some s => debug s
  | None => undefined
  end.

(* ================================================================== *)
(** ** Loops *)

(** A [while] loop whose body either continues with new loop variables
    ([inl]) or leaves the loop with a result ([inr]).  [iterate k] runs at
    most [2 ^ k] iterations. *)
Fixpoint iterate {L R : Type} (k : nat) (body : L -> M (L + R)) (s : L)
  : M (L + R) :=
  match k with
  | O => body s
  | S k' =>
      r <- iterate k' body s ;;
      match r with
      | inl s' => iterate k' body s'
      | inr x => ret (inr x)
      end
  end.

(** The loops of this program walk a linked list without writing memory until
    they leave; a walk of more than [2 ^ 64] steps has seen some 64-bit
    address twice and so never ends. *)
Definition while {L R : Type} (body : L -> M (L + R)) (s : L) : M R :=
  r <- iterate 64 body s ;;
  match r with
  | inl _ => fun _ => Diverge
  | inr x => ret x
  end.

(* ================================================================== *)
(** ** The allocator *)

Definition newline : string := String (ascii_of_nat 10) EmptyString.

(** [mmap(NULL, HEAP_SIZE, PROT_READ | PROT_WRITE, MAP_PRIVATE |
    MAP_ANONYMOUS, -1, 0)]: [result] is the kernel's answer, either
    [MAP_FAILED] or the base of [HEAP_SIZE] fresh bytes that read as zero. *)
Definition mmap (result : Z) : M Z :=
  if result =? MAP_FAILED then ret MAP_FAILED
  else
    modify (fun w =>
      set_mem (fun x => if (result <=? x) && (x <? result + HEAP_SIZE)
                        then 0 else mem w x) w) ;;
    ret result.

(** [init()]. *)
Definition init (mmap_result : Z) : M unit :=
  fp <- get free_ptr ;;
  if fp =? NULL then
    p <- mmap mmap_result ;;
    modify (set_free_ptr p) ;;
    (if p =? MAP_FAILED then
       debug ("mmap failed!" ++ newline) ;; exit 1
     else ret tt) ;;
    modify (set_start_ptr p) ;;
    s <- get start_ptr ;;
    modify (set_end_ptr (wrap64 (s + HEAP_SIZE))) ;;
    debug ("neo!" ++ newline)
  else ret tt.

(** One iteration of the free-list search of [malloc]; the loop variables are
    [(current, previous)], the result is the block to return, if any. *)
Definition search_body (size : Z) (cp : Z * Z) : M (Z * Z + option Z) :=
  let '(current, previous) := cp in
  if current =? NULL then ret (inr None)
  else
    csize <- load64 (current + off_size) ;;
    if csize >=? size then
      next <- load64 (current + off_next) ;;
      store64 (previous + off_next) next ;;
      ret (inr (Some (header_ptr_add current sizeof_header_s)))
    else
      next <- load64 (current + off_next) ;;
      ret (inl (next, current)).

(** The locals [excess], [block_size] and [total_size] of [malloc], as
    functions of the requested size. *)
Definition excess (size : Z) : Z :=
  if negb (size mod DOUBLE_WORD_SIZE =? 0)
  then DOUBLE_WORD_SIZE - size mod DOUBLE_WORD_SIZE
  else 0.
Definition block_size (size : Z) : Z := wrap64 (size + excess size).
Definition total_size (size : Z) : Z :=
  wrap64 (block_size size + sizeof_header_s).

(** The second half of [malloc]: a new block at the end of the used heap.
    The comparison is between unsigned 64-bit values. *)
Definition carve (size : Z) : M Z :=
  fp <- get free_ptr ;;
  e <- get end_ptr ;;
  if wrap64 (fp + total_size size) >=? e then ret NULL
  else
    let to_return := fp in
    store64 (to_return + off_size) size ;;
    store64 (to_return + off_next) NULL ;;
    let to_return := header_ptr_add to_return sizeof_header_s in
    modify (set_free_ptr
              (void_ptr_add (void_ptr_add fp size) sizeof_header_s)) ;;
    ret to_return.

(** [malloc(size)]. *)
Definition malloc (mmap_result : Z) (size : Z) : M Z :=
  debug "malloc(" ;;
  debug_int (to_long size) ;;
  debug (") called" ++ newline) ;;
  init mmap_result ;;
  if size =? 0 then ret NULL
  else
    head <- get free_list_head ;;
    found <- (if negb (head =? NULL)
              then while (search_body size) (head, NULL)
              else ret None) ;;
    match found with
    | Some p => ret p
    | None => carve size
    end.

(** [free(ptr)]. *)
Definition free (ptr : Z) : M unit :=
  if ptr =? NULL then ret tt
  else
    let ptr_header := void_ptr_add ptr (- sizeof_header_s) in
    temp <- get free_list_head ;;
    modify (set_free_list_head ptr_header) ;;
    store64 (ptr_header + off_next) temp.

(** [calloc(nmemb, size)]. *)
Definition calloc (mmap_result : Z) (nmemb size : Z) : M Z :=
  let block_size := wrap64 (nmemb * size) in
  new_block_ptr <- malloc mmap_result block_size ;;
  (if negb (new_block_ptr =? NULL)
   then memset_zero new_block_ptr block_size
   else ret tt) ;;
  ret new_block_ptr.

(** [realloc(ptr, size)]. *)
Definition realloc (mmap_result : Z) (ptr size : Z) : M Z :=
  if ptr =? NULL then malloc mmap_result size
  else if size =? 0 then free ptr ;; ret NULL
  else
    let temp := void_ptr_add ptr (- sizeof_header_s) in
    block_size <- load64 (temp + off_size) ;;
    if size <=? block_size then
      let ptr_header := void_ptr_add ptr (- 1) in
      store64 (ptr_header + off_size) size ;;
      ret ptr
    else
      new_block_ptr <- malloc mmap_result size ;;
      (if negb (new_block_ptr =? NULL)
       then memcpy new_block_ptr ptr block_size ;; free ptr
       else ret tt) ;;
      ret new_block_ptr.

(** What is left of [malloc] after its messages, [init()] and the test for
    size zero: the search of the free list, then the new block. *)
Definition malloc_search_then_carve (size : Z) : M Z :=
  head <- get free_list_head ;;
  found <- (if negb (head =? NULL)
            then while (search_body size) (head, NULL)
            else ret None) ;;
  match found with
  | Some p => ret p
  | None => carve size
  end.

(** The state [init()] leaves on first use when the reservation succeeds. *)
Definition reserved (mmap_result : Z) (w : state) : state :=
  mkState mmap_result mmap_result (wrap64 (mmap_result + HEAP_SIZE))
          (free_list_head w)
          (fun x => if (mmap_result <=? x) && (x <? mmap_result + HEAP_SIZE)
                    then 0 else mem w x)
          (out w ++ "neo!" ++ newline).

(** A 64-bit unsigned value. *)
Definition word (x : Z) : Prop := 0 <= x < 2 ^ 64.

(** The 16 bytes before [p] lie inside the mapped heap. *)
Definition header_in_heap (w : state) (p : Z) : Prop :=
  start_ptr w <= p - sizeof_header_s /\ p <= end_ptr w.

(* ================================================================== *)
(** ** Client programs *)

(** A page-aligned address, as [mmap] returns them. *)
Definition heap_base : Z := 2 ^ 46.

(** A run of client code from the initial state of the process. *)
Definition run {A : Type} (m : M A) : outcome A := m initial_state.

(** The value a run returns, and the state it leaves behind. *)
Definition value_of {A : Type} (o : outcome A) : option A :=
  match o with
  | Ret a _ => Some a
  | _ => None
  end.

Definition state_of {A : Type} (o : outcome A) : state :=
  match o with
  | Ret _ w => w
  | Exit _ w => w
  | _ => initial_state
  end.

(** The byte at [a], as the client reads it. *)
Definition load8 (a : Z) : M Z :=
  fun w => if mapped w a 1 then Ret (mem w a) w else Undefined.

(** One block is allocated and released.  Observed: the payload pointer, the
    [size] field at the start of the heap, where the block was carved, the
    [size] field 16 bytes before the payload, where [realloc] looks for it,
    and the head of the free list after [free]. *)
Definition stride_client : M (Z * Z * Z * Z) :=
  p <- malloc heap_base 8 ;;
  carved <- load64 (heap_base + off_size) ;;
  before_payload <- load64 (p - sizeof_header_s + off_size) ;;
  free p ;;
  head <- get free_list_head ;;
  ret (p, carved, before_payload, head).

(** Two blocks are allocated, the header of the second landing 16 bytes
    before the first payload, and the first is released: the head of the free
    list is then a header whose [size] field reads 64. *)
Definition head_match_setup : M unit :=
  p1 <- malloc heap_base 224 ;;
  p2 <- malloc heap_base 64 ;;
  free p1.

(** Three blocks are allocated, the first and the third released, and one
    more block requested while the second is still live. *)
Definition overlap_client : M (Z * Z * Z * Z) :=
  p1 <- malloc heap_base 224 ;;
  p2 <- malloc heap_base 64 ;;
  p3 <- malloc heap_base 8 ;;
  free p1 ;;
  free p3 ;;
  q <- malloc heap_base 64 ;;
  ret (p1, p2, p3, q).

(** As [overlap_client], observing the free list after the last call: the
    block returned, the head of the list and the head's [next] field. *)
Definition tail_match_client : M (Z * Z * Z) :=
  p1 <- malloc heap_base 224 ;;
  p2 <- malloc heap_base 64 ;;
  p3 <- malloc heap_base 8 ;;
  free p1 ;;
  free p3 ;;
  q <- malloc heap_base 64 ;;
  head <- get free_list_head ;;
  next <- load64 (head + off_next) ;;
  ret (q, head, next).

(** One large block on a fresh heap.  Observed: the payload pointer and the
    end of the heap. *)
Definition large_client : M (Z * Z) :=
  p <- malloc heap_base (HEAP_SIZE - 48) ;;
  e <- get end_ptr ;;
  ret (p, e).

(** The four allocations of [main()].  Observed: the four payload pointers
    and the 64-bit field 160 bytes into the first payload. *)
Definition main_client : M (Z * Z * Z * Z * Z) :=
  x <- malloc heap_base (100 * 4) ;;
  y <- malloc heap_base 64 ;;
  z <- malloc heap_base 96 ;;
  w <- malloc heap_base 48 ;;
  inside_x <- load64 (x + 160) ;;
  ret (x, y, z, w, inside_x).

(** A request of 5 bytes on a fresh heap.  Observed: the payload pointer, the
    [size] field of the new header and [free_ptr] after the call. *)
Definition carve_client : M (Z * Z * Z) :=
  p <- malloc heap_base 5 ;;
  recorded <- load64 (heap_base + off_size) ;;
  fp <- get free_ptr ;;
  ret (p, recorded, fp).

(** A request that fits the fresh heap exactly: 16 bytes of header and
    [HEAP_SIZE - 16] bytes of payload.  Observed: the result, [free_ptr] and
    [end_ptr] after the call. *)
Definition exact_fit_client : M (Z * Z * Z) :=
  p <- malloc heap_base (HEAP_SIZE - 16) ;;
  fp <- get free_ptr ;;
  e <- get end_ptr ;;
  ret (p, fp, e).

(** A block of 400 bytes, its first byte set to 170, is resized to [n]
    bytes.  Observed: both pointers, the [size] field of the header carved
    for the block, and the first byte behind each pointer afterwards. *)
Definition resize_client (n : Z) : M (Z * Z * Z * Z * Z) :=
  x <- malloc heap_base 400 ;;
  store8 x 170 ;;
  q <- realloc heap_base x n ;;
  recorded <- load64 (heap_base + off_size) ;;
  old_byte <- load8 x ;;
  new_byte <- load8 q ;;
  ret (x, q, recorded, old_byte, new_byte).

(** A block of 224 bytes is followed by one of 64 bytes, whose header lands
    16 bytes before the first payload; the first block, its first byte set
    to 170, is then resized to 8 bytes.  Observed: both pointers, the first
    payload byte afterwards, and the [size] fields 16 bytes before the
    payload and at the start of the heap. *)
Definition shrink_client : M (Z * Z * Z * Z * Z) :=
  p1 <- malloc heap_base 224 ;;
  p2 <- malloc heap_base 64 ;;
  store8 p1 170 ;;
  q <- realloc heap_base p1 8 ;;
  first_byte <- load8 p1 ;;
  before_payload <- load64 (p1 - sizeof_header_s + off_size) ;;
  carved <- load64 (heap_base + off_size) ;;
  ret (p1, q, first_byte, before_payload, carved).

(** As [shrink_client], with byte 100 of the first block set to 187 as
    well and the block resized to 300 bytes.  Observed: both pointers and
    bytes 0 and 100 behind the new pointer. *)
Definition grow_client : M (Z * Z * Z * Z) :=
  p1 <- malloc heap_base 224 ;;
  p2 <- malloc heap_base 64 ;;
  store8 p1 170 ;;
  store8 (p1 + 100) 187 ;;
  q <- realloc heap_base p1 300 ;;
  byte_0 <- load8 q ;;
  byte_100 <- load8 (q + 100) ;;
  ret (p1, q, byte_0, byte_100).

(** A request of [2 ^ 64 - 16] bytes on a fresh heap.  Observed: the result
    and [free_ptr] after the call. *)
Definition wrap_client : M (Z * Z) :=
  p <- malloc heap_base (2 ^ 64 - 16) ;;
  fp <- get free_ptr ;;
  ret (p, fp).

(** Blocks of 8, 225 and 64 bytes are allocated, then the first two are
    released.  Observed: the second payload pointer, the address at which the
    header of the third block was written, the third payload pointer, and
    the [size] field of that header before and after the two calls of
    [free]. *)
Definition header_clobber_client : M (Z * Z * Z * Z * Z) :=
  p0 <- malloc heap_base 8 ;;
  p1 <- malloc heap_base 225 ;;
  h2 <- get free_ptr ;;
  p2 <- malloc heap_base 64 ;;
  before <- load64 (h2 + off_size) ;;
  free p0 ;;
  free p1 ;;
  after <- load64 (h2 + off_size) ;;
  ret (p1, h2, p2, before, after).

(** A block that leaves 48 bytes of the heap, then a block of 8 bytes.
    Observed: the second payload pointer and [end_ptr]. *)
Definition past_end_client : M (Z * Z) :=
  p <- malloc heap_base (HEAP_SIZE - 64) ;;
  q <- malloc heap_base 8 ;;
  e <- get end_ptr ;;
  ret (q, e).

(** The same two blocks, and the second released. *)
Definition past_end_free_client : M unit :=
  p <- malloc heap_base (HEAP_SIZE - 64) ;;
  q <- malloc heap_base 8 ;;
  free q.

(** The first call of a process is [malloc(0)]. *)
Definition zero_client : M Z := malloc heap_base 0.

(** Closed goals are settled by evaluation. *)
Ltac closed :=
  vm_compute;
  repeat match goal with
         | |- _ /\ _ => split
         | |- _ = _ => reflexivity
         | |- _ -> False => discriminate
         | |- _ <> _ => discriminate
         end.

(* ================================================================== *)
(** ** Notions used to state further properties *)

(** [n] iterations of a loop body, one after the other, stopping as soon as
    the body leaves the loop. *)
Fixpoint run_n {L R : Type} (n : nat) (body : L -> M (L + R)) (s : L)
  : M (L + R) :=
  match n with
  | O => ret (inl s)
  | S n' =>
      r <- body s ;;
      match r with
      | inl s' => run_n n' body s'
      | inr x => ret (inr x)
      end
  end.

(** The free list in memory: starting from [head], the [next] fields lead
    through the headers [nodes], given as (address, value of the [size]
    field), and end in [NULL]. *)
Fixpoint free_list_at (w : state) (head : Z) (nodes : list (Z * Z)) : Prop :=
  match nodes with
  | [] => head = NULL
  | (a, sz) :: rest =>
      head = a /\ a <> NULL /\
      mapped w a sizeof_header_s = true /\
      read64 (mem w) (a + off_size) = sz /\
      free_list_at w (read64 (mem w) (a + off_next)) rest
  end.

(** The 16 bytes at [a] and the 16 bytes at [b] share no byte. *)
Definition apart (a b : Z) : Prop :=
  a + sizeof_header_s <= b \/ b + sizeof_header_s <= a.

(** The headers at the addresses [l] are pairwise apart. *)
Fixpoint all_apart (l : list Z) : Prop :=
  match l with
  | [] => True
  | a :: rest => Forall (apart a) rest /\ all_apart rest
  end.

(** The heap exists, [free_ptr] lies between its bounds, and the bounds are
    positive values of [intptr_t]. *)
Definition heap_ok (w : state) : Prop :=
  free_ptr w <> NULL /\ 0 < start_ptr w /\
  start_ptr w <= free_ptr w /\ free_ptr w <= end_ptr w /\
  end_ptr w <= 2 ^ 63.

(** From [w] to [w'] the bounds of the heap have not changed and [free_ptr]
    has not gone down; [w'] is still a heap. *)
Definition heap_kept (w w' : state) : Prop :=
  heap_ok w' /\ start_ptr w' = start_ptr w /\ end_ptr w' = end_ptr w /\
  free_ptr w <= free_ptr w'.

(** The value of a decimal digit; [None] for any other character. *)
Definition digit_of (c : ascii) : option Z :=
  let n := Z.of_N (N_of_ascii c) in
  if (48 <=? n) && (n <=? 57) then Some (n - 48) else None.

(** The number a decimal numeral denotes, read from the left with [acc] as
    the value read so far; [None] when a character is not a digit. *)
Fixpoint read_decimal (s : string) (acc : Z) : option Z :=
  match s with
  | EmptyString => Some acc
  | String c rest =>
      match digit_of c with
      | Some d => read_decimal rest (10 * acc + d)
      | None => None
      end
  end.

(** The text starts with the digit 0. *)
Definition leading_zero (s : string) : bool :=
  match s with
  | EmptyString => false
  | String c _ => Ascii.eqb c "0"%char
  end.

(* ================================================================== *)
(** ** States reached by short client programs *)

(** A heap just reserved at [heap_base]. *)
Definition fresh_heap : state := state_of (run zero_client).

(** A heap just reserved in which the client has set to 170 the byte at
    [heap_base + 260], which no block covers yet. *)
Definition dirty_heap : state :=
  state_of (run (zero_client ;; store8 (heap_base + 260) 170)).

(** One block of 8 bytes allocated. *)
Definition one_block : state := state_of (run (malloc heap_base 8)).

(** Blocks of 224 and 64 bytes allocated; the header of the second lies 16
    bytes before the first payload. *)
Definition two_blocks : state :=
  state_of (run (p1 <- malloc heap_base 224 ;; malloc heap_base 64)).

(** As [two_blocks], with the first byte of the first block set to 170. *)
Definition two_blocks_written : state :=
  state_of (run (p1 <- malloc heap_base 224 ;;
                 p2 <- malloc heap_base 64 ;;
                 store8 p1 170)).

(** Blocks of 224, 64 and 8 bytes allocated and the first released: the
    free list holds the header at [heap_base + 240], of size 64. *)
Definition one_released : state :=
  state_of (run (p1 <- malloc heap_base 224 ;;
                 p2 <- malloc heap_base 64 ;;
                 p3 <- malloc heap_base 8 ;;
                 free p1)).

(** As [one_released], with the third block released as well: the free list
    holds the headers at [heap_base + 560], of size 0, and at
    [heap_base + 240], of size 64. *)
Definition two_released : state :=
  state_of (run (p1 <- malloc heap_base 224 ;;
                 p2 <- malloc heap_base 64 ;;
                 p3 <- malloc heap_base 8 ;;
                 free p1 ;;
                 free p3)).

(* ================================================================== *)
(** * Properties *)


(* ================================================================== *)
(** ** Memory lemmas *)

Lemma write64_other (m : memory) (a v x : Z) :
  x < a \/ a + 8 <= x -> write64 m a v x = m x.
Proof.
  intros H. unfold write64.
  destruct (a <=? x) eqn:E1; destruct (x <? a + 8) eqn:E2; simpl;
    try reflexivity.
  apply Z.leb_le in E1. apply Z.ltb_lt in E2. lia.
Qed.

Lemma write64_at (m : memory) (a v k : Z) :
  0 <= k < 8 -> write64 m a v (a + k) = byte_of v k.
Proof.
  intros H. unfold write64.
  replace (a <=? a + k) with true by (symmetry; apply Z.leb_le; lia).
  replace (a + k <? a + 8) with true by (symmetry; apply Z.ltb_lt; lia).
  simpl. f_equal. lia.
Qed.

Lemma bytes_of_word (v : Z) :
  word v ->
  byte_of v 0 + 2 ^ 8 * byte_of v 1 + 2 ^ 16 * byte_of v 2
  + 2 ^ 24 * byte_of v 3 + 2 ^ 32 * byte_of v 4 + 2 ^ 40 * byte_of v 5
  + 2 ^ 48 * byte_of v 6 + 2 ^ 56 * byte_of v 7 = v.
Proof.
  unfold word, byte_of. intros H.
  change (8 * 0) with 0; change (8 * 1) with 8; change (8 * 2) with 16;
  change (8 * 3) with 24; change (8 * 4) with 32; change (8 * 5) with 40;
  change (8 * 6) with 48; change (8 * 7) with 56.
  change (2 ^ 0) with 1; change (2 ^ 8) with 256;
  change (2 ^ 16) with 65536; change (2 ^ 24) with 16777216;
  change (2 ^ 32) with 4294967296; change (2 ^ 40) with 1099511627776;
  change (2 ^ 48) with 281474976710656;
  change (2 ^ 56) with 72057594037927936.
  change (2 ^ 64) with 18446744073709551616 in H.
  Z.div_mod_to_equations; lia.
Qed.

(** A stored 64-bit field reads back. *)
Lemma read64_write64 (m : memory) (a v : Z) :
  word v -> read64 (write64 m a v) a = v.
Proof.
  intros H. unfold read64.
  replace (write64 m a v a) with (write64 m a v (a + 0))
    by (f_equal; lia).
  rewrite !write64_at by lia. apply bytes_of_word, H.
Qed.

(** A field that shares no byte with the stored one keeps its value. *)
Lemma read64_write64_other (m : memory) (a v b : Z) :
  b + 8 <= a \/ a + 8 <= b -> read64 (write64 m a v) b = read64 m b.
Proof.
  intros H. unfold read64. rewrite !write64_other by lia. reflexivity.
Qed.

Lemma wrap64_small (x : Z) : word x -> wrap64 x = x.
Proof. unfold word, wrap64. intros H. apply Z.mod_small, H. Qed.

Lemma mapped_true (w : state) (a n : Z) :
  start_ptr w <= a -> a + n <= end_ptr w -> mapped w a n = true.
Proof.
  intros H1 H2. unfold mapped.
  apply andb_true_intro; split; apply Z.leb_le; assumption.
Qed.

Lemma mapped_inv (w : state) (a n : Z) :
  mapped w a n = true -> start_ptr w <= a /\ a + n <= end_ptr w.
Proof.
  unfold mapped. intros H. apply andb_prop in H as [H1 H2].
  split; apply Z.leb_le; assumption.
Qed.

(* ================================================================== *)
(** ** Deallocation *)

(** [free] by itself.  [free(NULL)] does nothing.  For a non-null pointer [p]
    whose 16 preceding bytes ([sizeof(header_s)] being the stride of [free])
    lie in the heap, [free(p)] makes that header the head of the free
    list and stores the previous head in its [next] field, without a loop.
    Every byte outside that [next] field keeps its value, hence also the
    header's own [size] field, every payload and every header that shares no
    byte with the field; [free_ptr], [start_ptr], [end_ptr] and the output
    are unchanged.  Headers that [malloc] has carved across those 8 bytes,
    and pointers that [malloc] has returned past the end of the heap, are
    outside this statement. *)
Theorem free_pushes_header (w : state) (p : Z) :
  free NULL w = Ret tt w /\
  (p <> NULL -> 0 <= start_ptr w -> end_ptr w <= 2 ^ 64 ->
   header_in_heap w p -> word (free_list_head w) ->
   exists w',
     free p w = Ret tt w' /\
     free_list_head w' = p - sizeof_header_s /\
     read64 (mem w') (p - sizeof_header_s + off_next) = free_list_head w /\
     (forall a, a < p - sizeof_header_s + off_next \/ p <= a ->
                mem w' a = mem w a) /\
     read64 (mem w') (p - sizeof_header_s + off_size)
       = read64 (mem w) (p - sizeof_header_s + off_size) /\
     (forall h, h + sizeof_header_s <= p - sizeof_header_s + off_next
                \/ p <= h ->
                read64 (mem w') (h + off_size) = read64 (mem w) (h + off_size)
                /\ read64 (mem w') (h + off_next)
                   = read64 (mem w) (h + off_next)) /\
     free_ptr w' = free_ptr w /\ start_ptr w' = start_ptr w /\
     end_ptr w' = end_ptr w /\ out w' = out w).
Proof.
  split; [reflexivity|].
  intros Hp Hs He [Hlo Hhi] Hhead.
  assert (Hw : void_ptr_add p (- sizeof_header_s) = p - sizeof_header_s).
  { unfold void_ptr_add, sizeof_header_s in *.
    replace (p + - 16) with (p - 16) by lia.
    apply wrap64_small. unfold word. lia. }
  unfold free. fold NULL.
  destruct (p =? NULL) eqn:E; [apply Z.eqb_eq in E; contradiction|].
  rewrite Hw. unfold bind, get, modify, store64.
  unfold sizeof_header_s, off_next, off_size in *.
  rewrite mapped_true by (unfold set_free_list_head; simpl; lia).
  eexists. split; [reflexivity|]. simpl.
  repeat split; try reflexivity.
  - apply read64_write64, Hhead.
  - intros a Ha. apply write64_other. lia.
  - apply read64_write64_other. lia.
  - apply read64_write64_other. lia.
  - apply read64_write64_other. lia.
Qed.


(** The theorem at the first block a fresh heap hands out. *)
Lemma free_pushes_header_witness :
  let w := state_of (run (malloc heap_base 8)) in
  let p := heap_base + 256 in
  exists w',
    free p w = Ret tt w' /\
    free_list_head w' = p - sizeof_header_s /\
    read64 (mem w') (p - sizeof_header_s + off_next) = free_list_head w /\
    (forall a, a < p - sizeof_header_s + off_next \/ p <= a ->
               mem w' a = mem w a) /\
    read64 (mem w') (p - sizeof_header_s + off_size)
      = read64 (mem w) (p - sizeof_header_s + off_size) /\
    (forall h, h + sizeof_header_s <= p - sizeof_header_s + off_next
               \/ p <= h ->
               read64 (mem w') (h + off_size) = read64 (mem w) (h + off_size)
               /\ read64 (mem w') (h + off_next)
                  = read64 (mem w) (h + off_next)) /\
    free_ptr w' = free_ptr w /\ start_ptr w' = start_ptr w /\
    end_ptr w' = end_ptr w /\ out w' = out w.
Proof.
  intros w p.
  apply (proj2 (free_pushes_header w p)); unfold header_in_heap, word; closed.
Defined.

(* ================================================================== *)
(** ** [debug_int] *)

Lemma array_set_length (buffer : list ascii) (i : nat) (c : ascii) :
  List.length (array_set buffer i c) = List.length buffer.
Proof.
  revert i. induction buffer as [|h t IH]; intros [|i]; simpl; auto.
Qed.

Lemma nth_array_set_same (buffer : list ascii) (i : nat) (c d : ascii) :
  (i < List.length buffer)%nat -> nth i (array_set buffer i c) d = c.
Proof.
  revert i. induction buffer as [|h t IH]; intros [|i] H; simpl in *;
    try lia; auto.
  apply IH. lia.
Qed.

Lemma nth_array_set_other (buffer : list ascii) (i k : nat) (c d : ascii) :
  i <> k -> nth k (array_set buffer i c) d = nth k buffer d.
Proof.
  revert i k. induction buffer as [|h t IH]; intros [|i] [|k] H; simpl;
    auto; try congruence.
Qed.

(** A digit character is never the terminator. *)
Lemma digit_char_not_NUL (value : Z) :
  char_of_Z (Z.rem value 10 + 48) <> NUL.
Proof.
  assert (H : -9 <= Z.rem value 10 <= 9).
  { pose proof (Z.rem_bound_abs value 10). lia. }
  remember (Z.rem value 10) as d eqn:E. clear E.
  assert (C : d = -9 \/ d = -8 \/ d = -7 \/ d = -6 \/ d = -5 \/ d = -4 \/
              d = -3 \/ d = -2 \/ d = -1 \/ d = 0 \/ d = 1 \/ d = 2 \/
              d = 3 \/ d = 4 \/ d = 5 \/ d = 6 \/ d = 7 \/ d = 8 \/ d = 9)
    by lia.
  repeat (destruct C as [C|C]; [subst d; discriminate|]).
  subst d; discriminate.
Qed.

Lemma digits_loop_zero (i : nat) (buffer : list ascii) :
  digits_loop i 0 buffer = Some (i, buffer).
Proof. destruct i; reflexivity. Qed.

Lemma digits_loop_step (i : nat) (value : Z) (buffer : list ascii) :
  value <> 0 ->
  digits_loop (S i) value buffer
  = digits_loop i (Z.quot value 10)
      (array_set buffer i (char_of_Z (Z.rem value 10 + 48))).
Proof.
  intros H. simpl. destruct (value =? 0) eqn:E; [|reflexivity].
  apply Z.eqb_eq in E. contradiction.
Qed.

(** The loop stores only below its starting index. *)
Lemma digits_loop_frame (i : nat) :
  forall value buffer j buffer',
    digits_loop i value buffer = Some (j, buffer') ->
    (j <= i)%nat /\ List.length buffer' = List.length buffer /\
    forall k d, (i <= k)%nat -> nth k buffer' d = nth k buffer d.
Proof.
  induction i as [|i IH]; intros value buffer j buffer' H.
  - simpl in H. destruct (value =? 0); inversion H; subst. auto.
  - destruct (Z.eq_dec value 0) as [->|Hv].
    + rewrite digits_loop_zero in H. inversion H; subst. auto.
    + rewrite digits_loop_step in H by assumption.
      apply IH in H as (H1 & H2 & H3). rewrite array_set_length in H2.
      repeat split; [lia | assumption |].
      intros k d Hk. rewrite H3 by lia. apply nth_array_set_other. lia.
Qed.

(** For a nonzero value the loop ends on a digit it has stored. *)
Lemma digits_loop_nonzero (i : nat) :
  forall value buffer j buffer',
    value <> 0 -> (i <= List.length buffer)%nat ->
    digits_loop i value buffer = Some (j, buffer') ->
    (j < i)%nat /\ nth j buffer' NUL <> NUL.
Proof.
  induction i as [|i IH]; intros value buffer j buffer' Hv Hlen H.
  - simpl in H. destruct (value =? 0) eqn:E; [|discriminate].
    apply Z.eqb_eq in E. contradiction.
  - rewrite digits_loop_step in H by assumption.
    destruct (Z.eq_dec (Z.quot value 10) 0) as [Hq|Hq].
    + rewrite Hq, digits_loop_zero in H. inversion H; subst.
      split; [lia|]. rewrite nth_array_set_same by lia.
      apply digit_char_not_NUL.
    + apply IH in H; [|assumption|rewrite array_set_length; lia].
      destruct H; split; [lia | assumption].
Qed.

(** The loop stays inside the buffer when the value has at most [i] digits. *)
Lemma digits_loop_total (i : nat) :
  forall value buffer,
    Z.abs value < 10 ^ Z.of_nat i ->
    exists j buffer', digits_loop i value buffer = Some (j, buffer').
Proof.
  induction i as [|i IH]; intros value buffer H.
  - assert (value = 0) by (simpl in H; lia). subst. simpl. eauto.
  - destruct (Z.eq_dec value 0) as [->|Hv].
    + rewrite digits_loop_zero. eauto.
    + rewrite digits_loop_step by assumption. apply IH.
      rewrite Nat2Z.inj_succ, Z.pow_succ_r in H by lia.
      pose proof (Z.pow_pos_nonneg 10 (Z.of_nat i)).
      Z.to_euclidean_division_equations. lia.
Qed.

Lemma c_string_at_nonempty (buffer : list ascii) :
  forall i s, nth i buffer NUL <> NUL ->
              c_string_at buffer i = Some s -> s <> EmptyString.
Proof.
  induction buffer as [|c t IH]; intros i s Hn H; [discriminate|].
  destruct i as [|i]; simpl in *.
  - destruct (Ascii.eqb c NUL) eqn:E.
    + apply Ascii.eqb_eq in E. contradiction.
    + destruct (c_string_at t 0); inversion H. discriminate.
  - eapply IH; eassumption.
Qed.

Lemma c_string_at_total (buffer : list ascii) :
  forall i k, (i <= k)%nat -> (k < List.length buffer)%nat ->
              nth k buffer NUL = NUL ->
              exists s, c_string_at buffer i = Some s.
Proof.
  induction buffer as [|c t IH]; intros i k Hik Hk Hn; simpl in Hk; [lia|].
  destruct i as [|i]; simpl.
  - destruct (Ascii.eqb c NUL) eqn:E; [eauto|].
    destruct k as [|k].
    + simpl in Hn. subst c. discriminate.
    + destruct (IH O k) as [s Hs]; [lia | lia | assumption |].
      rewrite Hs. eauto.
  - destruct k as [|k]; [lia|]. apply (IH i k); [lia | lia | assumption].
Qed.

Lemma c_string_at_terminator (buffer : list ascii) :
  forall i, (i < List.length buffer)%nat -> nth i buffer NUL = NUL ->
            c_string_at buffer i = Some EmptyString.
Proof.
  induction buffer as [|c t IH]; intros i Hi Hn; simpl in Hi; [lia|].
  destruct i as [|i]; simpl in *.
  - subst c. reflexivity.
  - apply IH; [lia | assumption].
Qed.

(** What [debug_int] prints is defined for every value of at most 15
    digits. *)
Lemma debug_int_text_total (stack : list ascii) (value : Z) :
  List.length stack = 16%nat -> Z.abs value < 10 ^ 15 ->
  exists s, debug_int_text stack value = Some s.
Proof.
  intros Hlen Hv. unfold debug_int_text.
  destruct (digits_loop_total 15 value (array_set stack 15 NUL) Hv)
    as (j & buffer & H).
  rewrite H. apply digits_loop_frame in H as (H1 & H2 & H3).
  rewrite array_set_length in H2.
  apply (c_string_at_total buffer j 15%nat); [assumption | lia |].
  rewrite H3 by lia. apply nth_array_set_same. lia.
Qed.

Lemma skipn_array_set (buffer : list ascii) :
  forall i c, (i < List.length buffer)%nat ->
              skipn i (array_set buffer i c) = c :: skipn (S i) buffer.
Proof.
  induction buffer as [|h t IH]; intros [|i] c H; simpl in *; try lia.
  - reflexivity.
  - apply IH. lia.
Qed.

Lemma c_string_at_skipn (buffer : list ascii) :
  forall i, c_string_at buffer i = c_string_at (skipn i buffer) 0.
Proof.
  induction buffer as [|c t IH]; intros [|i]; simpl; try reflexivity.
  apply IH.
Qed.

(** The loop reads nothing of the buffer, and what it leaves from its final
    index on depends only on what the buffer held from the starting index
    on. *)
Lemma digits_loop_suffix (i : nat) :
  forall value b1 b2,
    (i <= List.length b1)%nat -> List.length b1 = List.length b2 ->
    skipn i b1 = skipn i b2 ->
    match digits_loop i value b1, digits_loop i value b2 with
    | Some (j1, b1'), Some (j2, b2') =>
        j1 = j2 /\ skipn j1 b1' = skipn j1 b2'
    | None, None => True
    | _, _ => False
    end.
Proof.
  induction i as [|i IH]; intros value b1 b2 Hi Hlen Hs.
  - simpl. destruct (value =? 0); auto.
  - destruct (Z.eq_dec value 0) as [->|Hv].
    + rewrite !digits_loop_zero. auto.
    + rewrite !digits_loop_step by assumption.
      apply IH.
      * rewrite array_set_length. lia.
      * rewrite !array_set_length. assumption.
      * rewrite !skipn_array_set by lia. f_equal. exact Hs.
Qed.

(** X18.  What [debug_int] prints does not depend on the uninitialised
    content of its buffer. *)
Lemma debug_int_text_stack_independent (stack1 stack2 : list ascii)
      (value : Z) :
  List.length stack1 = 16%nat -> List.length stack2 = 16%nat ->
  debug_int_text stack1 value = debug_int_text stack2 value.
Proof.
  intros H1 H2. unfold debug_int_text.
  pose proof (digits_loop_suffix 15 value (array_set stack1 15 NUL)
                (array_set stack2 15 NUL)) as H.
  rewrite !array_set_length in H.
  specialize (H ltac:(lia) ltac:(lia)).
  rewrite !skipn_array_set in H by lia.
  rewrite !skipn_all2 in H by lia.
  specialize (H eq_refl).
  destruct (digits_loop 15 value (array_set stack1 15 NUL)) as [[j1 b1]|];
    destruct (digits_loop 15 value (array_set stack2 15 NUL)) as [[j2 b2]|];
    try contradiction; [|reflexivity].
  destruct H as [-> H].
  rewrite (c_string_at_skipn b1), (c_string_at_skipn b2), H. reflexivity.
Qed.

Lemma append_empty_r (s : string) : (s ++ "")%string = s.
Proof. induction s as [|c s IH]; simpl; [|rewrite IH]; reflexivity. Qed.

(** C10.  [debug_int(0)] prints nothing: the digit loop does not run and
    [debug] is handed the empty string at [&buffer[15]], whatever the
    uninitialised buffer holds, so the output is unchanged.  A nonzero value
    never prints the empty string, and every value of at most 15 digits
    prints some text. *)
Theorem debug_int_zero_prints_nothing :
  (forall stack, List.length stack = 16%nat ->
                 debug_int_text stack 0 = Some EmptyString) /\
  (forall w, debug_int 0 w = Ret tt w) /\
  (forall stack value s,
      List.length stack = 16%nat -> value <> 0 ->
      debug_int_text stack value = Some s -> s <> EmptyString) /\
  (forall stack value,
      List.length stack = 16%nat -> value <> 0 -> Z.abs value < 10 ^ 15 ->
      exists s, debug_int_text stack value = Some s /\ s <> EmptyString).
Proof.
  assert (Hnz : forall stack value s,
             List.length stack = 16%nat -> value <> 0 ->
             debug_int_text stack value = Some s -> s <> EmptyString).
  { intros stack value s Hlen Hv H. unfold debug_int_text in H.
    destruct (digits_loop 15 value (array_set stack 15 NUL))
      as [[j buffer]|] eqn:E; [|discriminate].
    apply digits_loop_nonzero in E as [_ E];
      [|assumption|rewrite array_set_length; lia].
    eapply c_string_at_nonempty; eassumption. }
  repeat split.
  - intros stack Hlen. unfold debug_int_text. rewrite digits_loop_zero.
    apply c_string_at_terminator.
    + rewrite array_set_length. lia.
    + apply nth_array_set_same. lia.
  - intros [fp sp ep hd m o]. unfold debug_int. simpl.
    unfold debug, modify, set_out. simpl. rewrite append_empty_r.
    reflexivity.
  - exact Hnz.
  - intros stack value Hlen Hv Hb.
    destruct (debug_int_text_total stack value Hlen Hb) as [s Hs].
    exists s. split; [assumption|]. eapply Hnz; eassumption.
Qed.

(** The theorem at the value 1234567. *)
Lemma debug_int_zero_prints_nothing_witness :
  List.length blank_stack = 16%nat /\ 1234567 <> 0 /\
  Z.abs 1234567 < 10 ^ 15 /\
  debug_int_text blank_stack 1234567 = Some "1234567" /\
  "1234567" <> EmptyString /\
  exists s, debug_int_text blank_stack 1234567 = Some s /\ s <> EmptyString.
Proof.
  destruct debug_int_zero_prints_nothing as (_ & _ & H3 & H4).
  assert (L : List.length blank_stack = 16%nat) by reflexivity.
  assert (N : 1234567 <> 0) by discriminate.
  assert (B : Z.abs 1234567 < 10 ^ 15) by reflexivity.
  assert (T : debug_int_text blank_stack 1234567 = Some "1234567")
    by reflexivity.
  repeat split; try assumption.
  - exact (H3 blank_stack 1234567 "1234567" L N T).
  - exact (H4 blank_stack 1234567 L N B).
Defined.

(* ================================================================== *)
(** ** Requests of size zero *)

Lemma debug_int_zero (w : state) : debug_int 0 w = Ret tt w.
Proof.
  destruct w as [fp sp ep hd m o]. unfold debug_int. simpl.
  unfold debug, modify, set_out. simpl. rewrite append_empty_r.
  reflexivity.
Qed.

(** [init()] on a heap that exists already does nothing. *)
Lemma init_idempotent (mmap_result : Z) (w : state) :
  free_ptr w <> NULL -> init mmap_result w = Ret tt w.
Proof.
  intros H. unfold init, bind, get.
  destruct (free_ptr w =? NULL) eqn:E; [|reflexivity].
  apply Z.eqb_eq in E. contradiction.
Qed.

Lemma init_first_use (mmap_result : Z) (w : state) :
  free_ptr w = NULL -> mmap_result <> MAP_FAILED ->
  init mmap_result w = Ret tt (reserved mmap_result w).
Proof.
  intros H Hm. unfold init, bind, get. rewrite H. simpl.
  unfold mmap. apply Z.eqb_neq in Hm. rewrite Hm.
  unfold bind, modify, ret. simpl. rewrite Hm. reflexivity.
Qed.

Lemma init_reservation_fails (w : state) :
  free_ptr w = NULL -> exists w', init MAP_FAILED w = Exit 1 w'.
Proof.
  intros H. unfold init, bind, get. rewrite H. simpl. eauto.
Qed.

(** When the reservation fails on first use, [malloc(0)] does not return:
    the process exits with status 1. *)
Lemma malloc_zero_exits_when_reservation_fails (w : state) :
  free_ptr w = NULL -> exists w', malloc MAP_FAILED 0 w = Exit 1 w'.
Proof.
  intros H. unfold malloc.
  unfold bind at 1. unfold debug at 1. unfold modify.
  unfold bind at 1. change (to_long 0) with 0. rewrite debug_int_zero.
  unfold bind at 1. unfold debug at 1. unfold modify.
  unfold bind at 1.
  destruct (init_reservation_fails
              (set_out ((out w ++ "malloc(") ++ ") called" ++ newline) w) H)
    as [w' Hi].
  exists w'.
  match goal with
  | |- match ?i with _ => _ end = _ =>
      replace i with (@Exit unit 1 w') by (symmetry; exact Hi)
  end.
  reflexivity.
Qed.

(** C9, as the code has it.  [malloc(0)] and [calloc(nmemb, size)] with
    [nmemb * size = 0] call [init()] before they test the size.  When the
    heap exists already, or the reservation succeeds, both return [NULL] in
    the same state: no block is carved, the free list is unchanged and
    [free_ptr] does not move past the start of the heap.  On a heap that
    exists already nothing the allocator owns changes; on first use
    [start_ptr], [end_ptr] and [free_ptr] are set by the reservation, whose
    bytes read as zero. *)
Theorem zero_size_request (mmap_result : Z) (w : state) :
  free_ptr w <> NULL \/ mmap_result <> MAP_FAILED ->
  exists w',
    malloc mmap_result 0 w = Ret NULL w' /\
    (forall nmemb size,
        wrap64 (nmemb * size) = 0 ->
        calloc mmap_result nmemb size w = Ret NULL w') /\
    free_list_head w' = free_list_head w /\
    (free_ptr w <> NULL -> same_allocator w w') /\
    (free_ptr w = NULL ->
     free_ptr w' = mmap_result /\ start_ptr w' = mmap_result /\
     end_ptr w' = wrap64 (mmap_result + HEAP_SIZE) /\
     forall a, mem w' a
               = if (mmap_result <=? a) && (a <? mmap_result + HEAP_SIZE)
                 then 0 else mem w a).
Proof.
  intros H.
  set (w0 := set_out ((out w ++ "malloc(") ++ ") called" ++ newline) w).
  assert (Hpre : forall k : unit -> M Z,
             (debug "malloc(" ;; debug_int (to_long 0) ;;
              debug (") called" ++ newline) ;; k tt) w = k tt w0).
  { intros k. unfold bind at 1. unfold debug at 1. unfold modify.
    unfold bind at 1. change (to_long 0) with 0. rewrite debug_int_zero.
    unfold bind at 1. unfold debug, modify. reflexivity. }
  assert (Hm : forall w1, init mmap_result w0 = Ret tt w1 ->
                          malloc mmap_result 0 w = Ret NULL w1).
  { intros w1 Hi. unfold malloc.
    rewrite (Hpre (fun _ => init mmap_result ;;
                            if 0 =? 0 then ret NULL else _)).
    unfold bind at 1. rewrite Hi. reflexivity. }
  assert (Hc : forall w1, malloc mmap_result 0 w = Ret NULL w1 ->
               forall nmemb size, wrap64 (nmemb * size) = 0 ->
               calloc mmap_result nmemb size w = Ret NULL w1).
  { intros w1 Hw1 nmemb size Hz. unfold calloc. rewrite Hz.
    unfold bind at 1. rewrite Hw1. reflexivity. }
  destruct (Z.eq_dec (free_ptr w) NULL) as [Hf|Hf].
  - destruct H as [H|H]; [contradiction|].
    exists (reserved mmap_result w0).
    assert (Hi := init_first_use mmap_result w0 Hf H).
    repeat split; auto; contradiction.
  - exists w0. assert (Hi := init_idempotent mmap_result w0 Hf).
    repeat split; auto; contradiction.
Qed.

(* ================================================================== *)
(** ** Allocation on a heap that exists *)

Lemma to_long_small (x : Z) : x < 2 ^ 63 -> to_long x = x.
Proof.
  intros H. unfold to_long.
  destruct (x <? 2 ^ 63) eqn:E; [reflexivity|].
  apply Z.ltb_ge in E. lia.
Qed.

(** On a heap that exists, a request of nonzero size and at most 15 digits
    prints its message and goes on to the free list. *)
Lemma malloc_on_heap (mmap_result size : Z) (w : state) :
  free_ptr w <> NULL -> 0 < size < 10 ^ 15 ->
  exists text,
    malloc mmap_result size w
    = malloc_search_then_carve size (set_out text w).
Proof.
  intros Hf Hs.
  destruct (debug_int_text_total blank_stack size eq_refl) as [s Hd];
    [lia|].
  exists (((out w ++ "malloc(") ++ s) ++ ") called" ++ newline)%string.
  unfold malloc. unfold bind at 1. unfold debug at 1. unfold modify.
  unfold bind at 1. rewrite to_long_small by lia.
  unfold debug_int. rewrite Hd.
  unfold bind at 1. unfold debug at 1. unfold modify.
  unfold bind at 1. unfold debug at 1. unfold modify.
  unfold bind at 1. rewrite init_idempotent by exact Hf.
  destruct (size =? 0) eqn:E; [apply Z.eqb_eq in E; lia|].
  reflexivity.
Qed.

(** A loop whose first iteration is undefined is undefined. *)
Lemma iterate_undefined {L R : Type} (body : L -> M (L + R)) (s : L)
      (w : state) (k : nat) :
  body s w = Undefined -> iterate k body s w = Undefined.
Proof.
  intros H. induction k as [|k IH]; simpl; [exact H|].
  unfold bind. rewrite IH. reflexivity.
Qed.

Lemma geb_true (x y : Z) : y <= x -> (x >=? y) = true.
Proof. intros H. rewrite Z.geb_leb. apply Z.leb_le, H. Qed.

(** C2, as the code has it.  On a heap that exists, when the head of the
    free list is a readable header whose size satisfies the request, the
    search selects it in its first iteration with [previous] still [NULL],
    and [previous->next = current->next] stores through the null pointer:
    the call has undefined behaviour, and the block is never unlinked. *)
Theorem malloc_unlink_head_undefined (mmap_result size : Z) (w : state) :
  free_ptr w <> NULL -> 0 < size < 10 ^ 15 -> 8 < start_ptr w ->
  free_list_head w <> NULL ->
  mapped w (free_list_head w) sizeof_header_s = true ->
  size <= read64 (mem w) (free_list_head w + off_size) ->
  malloc mmap_result size w = Undefined.
Proof.
  intros Hf Hs Hstart Hh Hm Hfit.
  destruct (malloc_on_heap mmap_result size w Hf Hs) as [text ->].
  destruct w as [fp sp ep hd m o]. simpl in *.
  apply mapped_inv in Hm. simpl in Hm.
  unfold sizeof_header_s, off_size, off_next in *.
  unfold malloc_search_then_carve, bind at 1, get. simpl.
  apply Z.eqb_neq in Hh. rewrite Hh. simpl.
  unfold bind at 1, while, bind at 1.
  rewrite iterate_undefined; [reflexivity|].
  unfold search_body. rewrite Hh.
  unfold bind at 1, load64, off_size.
  rewrite mapped_true by (simpl; lia). simpl.
  rewrite geb_true by exact Hfit.
  unfold bind at 1, off_next. rewrite mapped_true by (simpl; lia).
  unfold bind at 1, store64, mapped. simpl.
  replace (sp <=? 8) with false by (symmetry; apply Z.leb_gt; lia).
  reflexivity.
Qed.

(** The theorem after [head_match_setup], for a request of 64 bytes. *)
Lemma malloc_unlink_head_undefined_witness :
  let w := state_of (run head_match_setup) in
  (free_ptr w <> NULL /\ 0 < 64 < 10 ^ 15 /\ 8 < start_ptr w /\
   free_list_head w <> NULL /\
   mapped w (free_list_head w) sizeof_header_s = true /\
   64 <= read64 (mem w) (free_list_head w + off_size)) /\
  malloc heap_base 64 w = Undefined.
Proof.
  intros w.
  assert (H1 : free_ptr w <> NULL) by closed.
  assert (H2 : 0 < 64 < 10 ^ 15) by closed.
  assert (H3 : 8 < start_ptr w) by closed.
  assert (H4 : free_list_head w <> NULL) by closed.
  assert (H5 : mapped w (free_list_head w) sizeof_header_s = true)
    by closed.
  assert (H6 : 64 <= read64 (mem w) (free_list_head w + off_size))
    by closed.
  split; [repeat split; assumption|].
  exact (malloc_unlink_head_undefined heap_base 64 w H1 H2 H3 H4 H5 H6).
Defined.

(** A match behind the head is unlinked: with the list [base + 560] (size
    0) then [base + 240] (size 64), a request of 64 bytes selects the second
    header and the [next] field of the first becomes [NULL]. *)
Lemma unlink_behind_head_relinks :
  value_of (run tail_match_client)
  = Some (heap_base + 240 + 256, heap_base + 560, NULL).
Proof. closed. Qed.

(* ================================================================== *)
(** ** New blocks *)

(** When the test for space fails, nothing is written. *)
Lemma carve_out_of_space (size : Z) (w : state) :
  end_ptr w <= wrap64 (free_ptr w + total_size size) ->
  carve size w = Ret NULL w.
Proof.
  intros H. unfold carve, bind, get. rewrite geb_true by exact H.
  reflexivity.
Qed.

(** When the test for space passes and the 16 bytes at [free_ptr] are
    mapped, the new header records the requested size, the payload pointer is
    [free_ptr] plus 16 headers, and [free_ptr] moves by the requested size
    plus one header. *)
Lemma carve_new_block (size : Z) (w : state) :
  word size ->
  wrap64 (free_ptr w + total_size size) < end_ptr w ->
  mapped w (free_ptr w) sizeof_header_s = true ->
  exists w',
    carve size w = Ret (header_ptr_add (free_ptr w) sizeof_header_s) w' /\
    read64 (mem w') (free_ptr w + off_size) = size /\
    read64 (mem w') (free_ptr w + off_next) = NULL /\
    free_ptr w'
    = void_ptr_add (void_ptr_add (free_ptr w) size) sizeof_header_s /\
    (forall a, a < free_ptr w \/ free_ptr w + sizeof_header_s <= a ->
               mem w' a = mem w a) /\
    start_ptr w' = start_ptr w /\ end_ptr w' = end_ptr w /\
    free_list_head w' = free_list_head w /\ out w' = out w.
Proof.
  intros Hsz Hlt Hm. destruct w as [fp sp ep hd m o]. simpl in *.
  apply mapped_inv in Hm. simpl in Hm.
  unfold sizeof_header_s, off_size, off_next in *.
  unfold carve, bind at 1, get. simpl. unfold bind at 1. simpl.
  replace (wrap64 (fp + total_size size) >=? ep) with false
    by (symmetry; rewrite Z.geb_leb; apply Z.leb_gt; exact Hlt).
  unfold bind at 1, store64, off_size.
  rewrite mapped_true by (simpl; lia).
  unfold bind at 1, off_next. rewrite mapped_true by (simpl; lia).
  unfold bind, modify, ret. simpl.
  eexists. split; [reflexivity|]. simpl.
  repeat split.
  - rewrite read64_write64_other by lia. apply read64_write64, Hsz.
  - apply read64_write64. unfold word, NULL. lia.
  - intros a Ha. rewrite !write64_other by lia. reflexivity.
Qed.


(* ================================================================== *)
(** ** Failure leaves the allocator as it was *)

(** An invariant of the state between iterations, and what holds of the
    result when the loop is left. *)
Lemma iterate_invariant {L R : Type} (body : L -> M (L + R))
      (P : state -> Prop) (Q : R -> state -> Prop) :
  (forall s w r w', P w -> body s w = Ret r w' ->
                    match r with inl _ => P w' | inr x => Q x w' end) ->
  forall k s w r w',
    P w -> iterate k body s w = Ret r w' ->
    match r with inl _ => P w' | inr x => Q x w' end.
Proof.
  intros Hbody. induction k as [|k IH]; intros s w r w' HP H; simpl in H.
  - eapply Hbody; eassumption.
  - unfold bind in H.
    destruct (iterate k body s w) as [r1 w1| | |] eqn:E; try discriminate.
    pose proof (IH _ _ _ _ HP E) as H1.
    destruct r1 as [s1|x].
    + eapply IH; eassumption.
    + inversion H; subst. exact H1.
Qed.

(** The search writes nothing unless it returns a block, and a block it
    returns lies 256 bytes after a readable header. *)
Lemma search_body_cases (size : Z) (w0 : state) :
  forall s w r w',
    w = w0 -> search_body size s w = Ret r w' ->
    match r with
    | inl _ => w' = w0
    | inr None => w' = w0
    | inr (Some q) =>
        exists current,
          mapped w0 (current + off_size) 8 = true /\
          q = header_ptr_add current sizeof_header_s
    end.
Proof.
  intros [current previous] w r w' -> H. unfold search_body in H.
  destruct (current =? NULL); [inversion H; reflexivity|].
  unfold bind at 1 in H. unfold load64 at 1 in H.
  destruct (mapped w0 (current + off_size) 8) eqn:Em; [|discriminate].
  destruct (read64 (mem w0) (current + off_size) >=? size).
  - unfold bind at 1 in H. unfold load64 in H.
    destruct (mapped w0 (current + off_next) 8); [|discriminate].
    unfold bind at 1 in H. unfold store64 in H.
    destruct (mapped w0 (previous + off_next) 8); [|discriminate].
    inversion H; subst. exists current. split; [assumption | reflexivity].
  - unfold bind at 1 in H. unfold load64 in H.
    destruct (mapped w0 (current + off_next) 8); [|discriminate].
    inversion H; reflexivity.
Qed.

(** The same for a whole loop. *)
Lemma while_invariant {L R : Type} (body : L -> M (L + R))
      (P : state -> Prop) (Q : R -> state -> Prop) :
  (forall s w r w', P w -> body s w = Ret r w' ->
                    match r with inl _ => P w' | inr x => Q x w' end) ->
  forall s w x w', P w -> while body s w = Ret x w' -> Q x w'.
Proof.
  intros Hbody s w x w' HP. unfold while. generalize 64%nat. intros k H.
  unfold bind in H.
  destruct (iterate k body s w) as [r w1| | |] eqn:E; try discriminate.
  pose proof (iterate_invariant body P Q Hbody k s w r w1 HP E) as K.
  destruct r as [s1|y]; [discriminate|].
  inversion H; subst. exact K.
Qed.

Lemma while_search_cases (size : Z) (s : Z * Z) (w : state)
      (found : option Z) (w' : state) :
  while (search_body size) s w = Ret found w' ->
  match found with
  | None => w' = w
  | Some q =>
      exists current,
        mapped w (current + off_size) 8 = true /\
        q = header_ptr_add current sizeof_header_s
  end.
Proof.
  intros H.
  exact (while_invariant (search_body size) (fun w1 => w1 = w)
           (fun x w1 =>
              match x with
              | None => w1 = w
              | Some q =>
                  exists current,
                    mapped w (current + off_size) 8 = true /\
                    q = header_ptr_add current sizeof_header_s
              end)
           (search_body_cases size w) s w found w' eq_refl H).
Qed.

(** Sixteen headers after a mapped address is not the null pointer. *)
Lemma payload_not_null (w : state) (a : Z) :
  0 <= start_ptr w -> end_ptr w + 256 <= 2 ^ 64 ->
  mapped w a 8 = true -> header_ptr_add a sizeof_header_s <> NULL.
Proof.
  intros Hs He Hm. apply mapped_inv in Hm.
  unfold header_ptr_add, sizeof_header_s, NULL.
  rewrite wrap64_small; unfold word; lia.
Qed.

Lemma search_then_carve_null (size : Z) (w w' : state) :
  0 <= start_ptr w -> end_ptr w + 256 <= 2 ^ 64 ->
  malloc_search_then_carve size w = Ret NULL w' -> w' = w.
Proof.
  intros Hs He H. unfold malloc_search_then_carve in H.
  unfold bind at 1 in H. unfold get at 1 in H. unfold bind at 1 in H.
  assert (Hcarve : carve size w = Ret NULL w' -> w' = w).
  { clear H. intros H. unfold carve in H.
    unfold bind at 1 in H. unfold get at 1 in H.
    unfold bind at 1 in H. unfold get at 1 in H.
    destruct (wrap64 (free_ptr w + total_size size) >=? end_ptr w);
      [inversion H; reflexivity|].
    unfold bind at 1 in H. unfold store64 at 1 in H.
    destruct (mapped w (free_ptr w + off_size) 8) eqn:Em; [|discriminate].
    unfold bind at 1 in H. unfold store64 at 1 in H.
    destruct (mapped _ (free_ptr w + off_next) 8); [|discriminate].
    unfold bind, modify, ret in H. inversion H as [[Hq Hw]].
    unfold off_size in Em. rewrite Z.add_0_r in Em.
    exfalso. exact (payload_not_null w (free_ptr w) Hs He Em Hq). }
  destruct (negb (free_list_head w =? NULL)).
  - destruct (while (search_body size) (free_list_head w, NULL) w)
      as [found w1| | |] eqn:E; try discriminate.
    apply while_search_cases in E. destruct found as [q|].
    + inversion H; subst. destruct E as (current & Em & Hq).
      unfold off_size in Em. rewrite Z.add_0_r in Em.
      exfalso. exact (payload_not_null w current Hs He Em (eq_sym Hq)).
    + subst w1. apply Hcarve, H.
  - apply Hcarve, H.
Qed.

(** On a heap that exists, a [malloc] that returns [NULL] has changed
    nothing but the diagnostic output: not [free_ptr], not the bounds, not
    the free list, not one byte of memory. *)
Lemma malloc_null_leaves_allocator (mmap_result size : Z) (w w' : state) :
  free_ptr w <> NULL -> 0 <= start_ptr w -> end_ptr w + 256 <= 2 ^ 64 ->
  malloc mmap_result size w = Ret NULL w' -> same_allocator w w'.
Proof.
  intros Hf Hs He H. unfold malloc in H.
  unfold bind at 1 in H. unfold debug at 1 in H. unfold modify at 1 in H.
  unfold bind at 1 in H. unfold debug_int at 1 in H.
  destruct (debug_int_text blank_stack (to_long size)) as [s|];
    [|discriminate].
  unfold debug at 1 in H. unfold modify at 1 in H.
  unfold bind at 1 in H. unfold debug at 1 in H. unfold modify at 1 in H.
  unfold bind at 1 in H. rewrite init_idempotent in H by exact Hf.
  destruct (size =? 0).
  - inversion H; subst. repeat split.
  - apply search_then_carve_null in H; [|exact Hs|exact He].
    subst w'. repeat split.
Qed.

(* ================================================================== *)
(** ** Runs of the client programs *)

(** C1, as the code has it.  [malloc(8)] on a fresh heap writes the header
    at the start of the heap, where the [size] field then reads 8, and
    returns the address [16 * sizeof(header_s) = 256] bytes after it, since
    it adds [sizeof(header_s)] to a [header_s*].  [free] and [realloc]
    subtract [sizeof(header_s)] from a [void*] and so look 16 bytes before
    the payload, 240 bytes after the header, where the [size] field reads 0;
    that address becomes the head of the free list. *)
Theorem header_stride_differs :
  value_of (run stride_client)
  = Some (heap_base + 256, 8, 0, heap_base + 240) /\
  header_ptr_add heap_base sizeof_header_s = heap_base + 256 /\
  void_ptr_add (heap_base + 256) (- sizeof_header_s) = heap_base + 240.
Proof. closed. Qed.

(** C3, as the code has it.  After [malloc(224)], [malloc(64)], [malloc(8)],
    with the first and third blocks released, [malloc(64)] returns the
    payload pointer of the second block, which is still live.  A single
    [malloc(HEAP_SIZE - 48)] on a fresh heap returns a payload that starts
    256 bytes into the heap and so ends 208 bytes past [end_ptr].  In
    [main()] the four payloads are apart, but the header of the second block
    (size 64) lies 160 bytes into the first payload. *)
Theorem live_payload_handed_out_twice :
  value_of (run overlap_client)
  = Some (heap_base + 256, heap_base + 496, heap_base + 576,
          heap_base + 496) /\
  value_of (run large_client)
  = Some (heap_base + 256, heap_base + HEAP_SIZE) /\
  (heap_base + 256) + (HEAP_SIZE - 48) = heap_base + HEAP_SIZE + 208 /\
  value_of (run main_client)
  = Some (heap_base + 256, heap_base + 672, heap_base + 752,
          heap_base + 864, 64).
Proof. closed. Qed.

(** C4, as the code has it.  [malloc(5)] on a fresh heap computes the padded
    size 16 and the total size 32, but the new header records 5 and
    [free_ptr] moves by [5 + 16 = 21] bytes. *)
Theorem carve_records_requested_size :
  value_of (run carve_client) = Some (heap_base + 256, 5, heap_base + 21) /\
  block_size 5 = 16 /\ total_size 5 = 32.
Proof. closed. Qed.

(** C5, as the code has it.  On a fresh heap a request whose total size is
    exactly [HEAP_SIZE] has [free_ptr + total_size = end_ptr]; the test is
    [>=], so [malloc] returns [NULL] and leaves [free_ptr] at the start of
    the heap.  A request of [2 ^ 64 - 16] bytes, whose total size wraps
    to 0, passes the test and is handed a payload pointer. *)
Theorem exact_fit_is_refused :
  value_of (run exact_fit_client)
  = Some (NULL, heap_base, heap_base + HEAP_SIZE) /\
  heap_base + total_size (HEAP_SIZE - 16) = heap_base + HEAP_SIZE /\
  value_of (run wrap_client) = Some (heap_base + 256, heap_base) /\
  total_size (2 ^ 64 - 16) = 0.
Proof. closed. Qed.

(** C6, as the code has it.  [realloc(x, 100)] of a block of 400 bytes finds
    size 0 sixteen bytes before the payload, takes the growing path and
    returns another pointer, whose first byte is not the 170 stored in the
    block; the header carved for the block still records 400.  When the
    field 16 bytes before the payload does hold a size (64) that covers the
    request (8), [realloc] returns the same pointer, but stores the new size
    at [ptr - 1]: the first payload byte changes from 170 to 0 and the size
    field still reads 64. *)
Theorem shrink_is_not_in_place :
  value_of (run (resize_client 100))
  = Some (heap_base + 256, heap_base + 672, 400, 170, 0) /\
  value_of (run shrink_client)
  = Some (heap_base + 256, heap_base + 256, 0, 64, 224).
Proof. closed. Qed.

(** C7, as the code has it.  [realloc(x, 800)] of a block of 400 bytes whose
    first byte is 170 reads the old size 16 bytes before the payload, where
    it finds 0, copies no byte and returns a new block whose first byte
    is 0.  When the field 16 bytes before the payload holds the size of
    another block (64), [realloc(p1, 300)] of a block of 224 bytes copies 64
    bytes: byte 0 arrives, byte 100 does not. *)
Theorem grow_copies_nothing :
  value_of (run (resize_client 800))
  = Some (heap_base + 256, heap_base + 672, 400, 170, 0) /\
  value_of (run grow_client)
  = Some (heap_base + 256, heap_base + 576, 170, 0).
Proof. closed. Qed.

(** C8, as the code has it.  After [malloc(8)], [malloc(225)] and
    [malloc(64)] the header of the third block lies at [heap_base + 265],
    since [free_ptr] advances by the unpadded size, and its [size] field
    reads 64.  [free] of the first block, then of the second, whose pointer
    is [heap_base + 280], stores the previous head [heap_base + 240] into the
    8 bytes at [heap_base + 272]: the first of them is the last byte of that
    [size] field, which now reads [64 + 240 * 2 ^ 56], although the third
    block was never released.  After [malloc(HEAP_SIZE - 64)], [malloc(8)]
    returns a pointer 208 bytes past [end_ptr], and [free] of that pointer
    stores outside the heap. *)
Theorem free_rewrites_live_header :
  value_of (run header_clobber_client)
  = Some (heap_base + 280, heap_base + 265, heap_base + 521,
          64, 64 + 240 * 2 ^ 56) /\
  value_of (run past_end_client)
  = Some (heap_base + HEAP_SIZE + 208, heap_base + HEAP_SIZE) /\
  run past_end_free_client = Undefined.
Proof. closed. Qed.

(** When the reservation fails on first use, [calloc] of zero bytes does not
    return either. *)
Lemma calloc_zero_exits_when_reservation_fails (nmemb size : Z) (w : state) :
  free_ptr w = NULL -> wrap64 (nmemb * size) = 0 ->
  exists w', calloc MAP_FAILED nmemb size w = Exit 1 w'.
Proof.
  intros H Hz.
  destruct (malloc_zero_exits_when_reservation_fails w H) as [w' Hm].
  exists w'. unfold calloc. rewrite Hz. unfold bind at 1. rewrite Hm.
  reflexivity.
Qed.

(** C9 fails on first use: [malloc(0)] returns [NULL], but [init()] has run
    before the test of the size and has set [free_ptr], [start_ptr] and
    [end_ptr]. *)
Lemma malloc_zero_reserves_heap :
  value_of (run zero_client) = Some NULL /\
  free_ptr (state_of (run zero_client)) = heap_base /\
  free_ptr initial_state = NULL /\
  ~ same_allocator initial_state (state_of (run zero_client)).
Proof.
  repeat split; try reflexivity.
  unfold same_allocator. intros [H _]. vm_compute in H. discriminate.
Qed.

(** The theorem at the first call of a process. *)
Lemma zero_size_request_witness :
  (free_ptr initial_state <> NULL \/ heap_base <> MAP_FAILED) /\
  exists w',
    malloc heap_base 0 initial_state = Ret NULL w' /\
    (forall nmemb size,
        wrap64 (nmemb * size) = 0 ->
        calloc heap_base nmemb size initial_state = Ret NULL w') /\
    free_list_head w' = free_list_head initial_state /\
    (free_ptr initial_state <> NULL -> same_allocator initial_state w') /\
    (free_ptr initial_state = NULL ->
     free_ptr w' = heap_base /\ start_ptr w' = heap_base /\
     end_ptr w' = wrap64 (heap_base + HEAP_SIZE) /\
     forall a, mem w' a
               = if (heap_base <=? a) && (a <? heap_base + HEAP_SIZE)
                 then 0 else mem initial_state a).
Proof.
  assert (H : free_ptr initial_state <> NULL \/ heap_base <> MAP_FAILED)
    by (right; closed).
  split; [exact H|].
  exact (zero_size_request heap_base initial_state H).
Defined.

(* ================================================================== *)
(** * Further properties of the code *)

(* ================================================================== *)
(** ** Loops, step by step *)

Lemma run_n_add {L R : Type} (body : L -> M (L + R)) (a b : nat) :
  forall s w,
    run_n (a + b) body s w
    = (r <- run_n a body s ;;
       match r with
       | inl s' => run_n b body s'
       | inr x => ret (inr x)
       end) w.
Proof.
  induction a as [|a IH]; intros s w; simpl.
  - reflexivity.
  - unfold bind. destruct (body s w) as [r w1| | |]; try reflexivity.
    destruct r as [s1|x]; [|reflexivity].
    rewrite IH. unfold bind. reflexivity.
Qed.

Lemma iterate_run_n {L R : Type} (body : L -> M (L + R)) (k : nat) :
  forall s w, iterate k body s w = run_n (2 ^ k) body s w.
Proof.
  induction k as [|k IH]; intros s w.
  - simpl. unfold bind. destruct (body s w) as [r w1| | |]; try reflexivity.
    destruct r; reflexivity.
  - rewrite Nat.pow_succ_r'.
    replace (2 * 2 ^ k)%nat with (2 ^ k + 2 ^ k)%nat by lia.
    rewrite run_n_add. simpl iterate. unfold bind.
    rewrite IH. destruct (run_n (2 ^ k) body s w) as [r w1| | |];
      try reflexivity.
    destruct r as [s1|x]; [apply IH | reflexivity].
Qed.

(** A loop that leaves after [n] iterations, [n] at most [2 ^ 64], returns
    what its last iteration returns. *)
Lemma while_run_n {L R : Type} (body : L -> M (L + R)) (n : nat)
      (s : L) (w : state) (x : R) (w' : state) :
  run_n n body s w = Ret (inr x) w' -> (n <= 2 ^ 64)%nat ->
  while body s w = Ret x w'.
Proof.
  intros H Hn. unfold while. generalize dependent 64%nat. intros k Hn.
  unfold bind. rewrite iterate_run_n.
  replace (2 ^ k)%nat with (n + (2 ^ k - n))%nat by lia.
  rewrite run_n_add. unfold bind. rewrite H. reflexivity.
Qed.

(** A loop that reaches, without leaving, variables and a state from which
    its body continues with the same variables in the same state never
    leaves. *)
Lemma while_diverges {L R : Type} (body : L -> M (L + R)) (s s1 : L)
      (w : state) :
  body s w = Ret (inl s1) w -> body s1 w = Ret (inl s1) w ->
  @while L R body s w = Diverge.
Proof.
  intros H H1. unfold while. generalize 64%nat. intros k. unfold bind.
  assert (E1 : forall k, iterate k body s1 w = Ret (inl s1) w).
  { clear k. induction k as [|k IH]; simpl; [exact H1|].
    unfold bind. rewrite IH. exact IH. }
  assert (E : iterate k body s w = Ret (inl s1) w).
  { induction k as [|k IH]; simpl; [exact H|].
    unfold bind. rewrite IH. apply E1. }
  rewrite E. reflexivity.
Qed.

(* ================================================================== *)
(** ** The search of the free list *)

Lemma mapped_header_fields (w : state) (a : Z) :
  mapped w a sizeof_header_s = true ->
  mapped w (a + off_size) 8 = true /\ mapped w (a + off_next) 8 = true.
Proof.
  intros H. apply mapped_inv in H.
  unfold sizeof_header_s, off_size, off_next in *.
  split; apply mapped_true; lia.
Qed.

Lemma search_body_end (size previous : Z) (w : state) :
  search_body size (NULL, previous) w = Ret (inr None) w.
Proof. reflexivity. Qed.

Lemma search_body_skip (size current previous : Z) (w : state) :
  current <> NULL -> mapped w current sizeof_header_s = true ->
  read64 (mem w) (current + off_size) < size ->
  search_body size (current, previous) w
  = Ret (inl (read64 (mem w) (current + off_next), current)) w.
Proof.
  intros Hc Hm Hlt. apply mapped_header_fields in Hm as [Hm1 Hm2].
  unfold search_body. apply Z.eqb_neq in Hc. rewrite Hc.
  unfold bind at 1, load64 at 1. rewrite Hm1.
  replace (read64 (mem w) (current + off_size) >=? size) with false
    by (symmetry; rewrite Z.geb_leb; apply Z.leb_gt; exact Hlt).
  unfold bind, load64. rewrite Hm2. reflexivity.
Qed.

Lemma search_body_take (size current previous : Z) (w : state) :
  current <> NULL -> mapped w current sizeof_header_s = true ->
  size <= read64 (mem w) (current + off_size) ->
  mapped w (previous + off_next) 8 = true ->
  search_body size (current, previous) w
  = Ret (inr (Some (header_ptr_add current sizeof_header_s)))
        (set_mem (write64 (mem w) (previous + off_next)
                          (read64 (mem w) (current + off_next))) w).
Proof.
  intros Hc Hm Hle Hp. apply mapped_header_fields in Hm as [Hm1 Hm2].
  unfold search_body. apply Z.eqb_neq in Hc. rewrite Hc.
  unfold bind at 1, load64 at 1. rewrite Hm1.
  rewrite geb_true by exact Hle.
  unfold bind at 1, load64 at 1. rewrite Hm2.
  unfold bind, store64. rewrite Hp. reflexivity.
Qed.

Lemma run_n_S {L R : Type} (body : L -> M (L + R)) (n : nat) (s : L)
      (w : state) :
  run_n (S n) body s w
  = (r <- body s ;;
     match r with
     | inl s' => run_n n body s'
     | inr x => ret (inr x)
     end) w.
Proof. reflexivity. Qed.

(** When no header of the list is large enough, the search ends at the end
    of the list, after one iteration per header, and has written nothing. *)
Lemma search_no_fit (size : Z) (w : state) (nodes : list (Z * Z)) :
  forall current previous,
    free_list_at w current nodes ->
    Forall (fun n => snd n < size) nodes ->
    run_n (S (List.length nodes)) (search_body size) (current, previous) w
    = Ret (inr None) w.
Proof.
  induction nodes as [|[a sz] rest IH]; intros current previous Hl Hf;
    cbn [free_list_at List.length] in *.
  - subst current. reflexivity.
  - destruct Hl as (-> & Ha & Hm & Hsz & Hrest).
    inversion Hf as [|? ? Hlt Hf']; subst. cbn [snd] in Hlt.
    rewrite run_n_S. unfold bind at 1.
    rewrite search_body_skip by assumption.
    apply IH; assumption.
Qed.

Lemma last_cons {A : Type} (x : A) (l : list A) (d : A) :
  last (x :: l) d = last l x.
Proof.
  revert x d. induction l as [|y l IH]; intros x d; [reflexivity|].
  change (last (x :: y :: l) d) with (last (y :: l) d).
  rewrite !IH. reflexivity.
Qed.

(** The first header that is large enough, reached after the headers
    [before] that are not: the search stores that header's [next] field into
    the [next] field of the header visited last ([previous] when there is
    none) and returns the address 16 headers further. *)
Lemma search_first_fit (size : Z) (w : state) (a sz : Z)
      (after : list (Z * Z)) (before : list (Z * Z)) :
  forall current previous,
    free_list_at w current (before ++ (a, sz) :: after) ->
    Forall (fun n => snd n < size) before -> size <= sz ->
    mapped w (last (map fst before) previous + off_next) 8 = true ->
    run_n (S (List.length before)) (search_body size) (current, previous) w
    = Ret (inr (Some (header_ptr_add a sizeof_header_s)))
          (set_mem (write64 (mem w)
                            (last (map fst before) previous + off_next)
                            (read64 (mem w) (a + off_next))) w).
Proof.
  induction before as [|[b sb] before IH];
    intros current previous Hl Hf Hle Hp;
    cbn [app free_list_at List.length map fst] in *.
  - cbn [last] in *. destruct Hl as (-> & Ha & Hm & Hsz & _).
    rewrite run_n_S. unfold bind.
    rewrite search_body_take; try assumption; [reflexivity|].
    rewrite Hsz. exact Hle.
  - destruct Hl as (-> & Hb & Hm & Hsz & Hrest).
    inversion Hf as [|? ? Hlt Hf']; subst. cbn [snd] in Hlt.
    rewrite last_cons in *.
    rewrite run_n_S. unfold bind at 1.
    rewrite search_body_skip by assumption.
    apply IH; assumption.
Qed.

(* ================================================================== *)
(** ** Allocation when no free block fits *)

(** For a request of at most 15 digits nothing wraps: the padded size is the
    next multiple of 16 and the total adds one header. *)
Lemma sizes_small (size : Z) :
  0 < size < 10 ^ 15 ->
  size <= block_size size < size + 16 /\
  block_size size mod 16 = 0 /\
  total_size size = block_size size + 16.
Proof.
  intros H. unfold total_size, block_size, excess, DOUBLE_WORD_SIZE,
    WORD_SIZE, sizeof_header_s. change (8 * 2) with 16.
  assert (P : 10 ^ 15 = 1000000000000000) by reflexivity.
  rewrite P in H. clear P.
  pose proof (Z.mod_pos_bound size 16 ltac:(lia)) as Hm.
  destruct (size mod 16 =? 0) eqn:E; cbn [negb].
  - apply Z.eqb_eq in E. rewrite Z.add_0_r.
    rewrite (wrap64_small size) by (unfold word; lia).
    rewrite wrap64_small by (unfold word; lia).
    repeat split; first [lia | exact E].
  - apply Z.eqb_neq in E.
    rewrite (wrap64_small (size + _)) by (unfold word; lia).
    rewrite wrap64_small by (unfold word; lia).
    repeat split; try lia.
    Z.div_mod_to_equations. lia.
Qed.

Lemma nothing_fits_search (size : Z) (w : state) (nodes : list (Z * Z))
      (text : string) :
  free_list_at w (free_list_head w) nodes ->
  Forall (fun n => snd n < size) nodes ->
  (List.length nodes < 2 ^ 64)%nat ->
  malloc_search_then_carve size (set_out text w)
  = carve size (set_out text w).
Proof.
  intros Hl Hf Hn. unfold malloc_search_then_carve.
  unfold bind at 1, get at 1. cbn [free_list_head set_out].
  destruct (negb (free_list_head w =? NULL)); [|reflexivity].
  unfold bind at 1.
  rewrite (while_run_n (search_body size) (S (List.length nodes))
             (free_list_head w, NULL) (set_out text w) None
             (set_out text w)); [reflexivity| |lia].
  apply search_no_fit; [|exact Hf].
  clear Hf Hn. revert Hl. generalize (free_list_head w).
  induction nodes as [|[a sz] rest IH]; intros h Hl; [exact Hl|].
  cbn [free_list_at] in *. destruct Hl as (H1 & H2 & H3 & H4 & H5).
  repeat split; try assumption. apply IH. exact H5.
Qed.

(** X4.  When no header of the free list is large enough and the test for space
    fails, [malloc] returns [NULL] and nothing the allocator owns has
    changed. *)
Theorem malloc_nothing_fits_no_space (mmap_result size : Z) (w : state)
        (nodes : list (Z * Z)) :
  heap_ok w -> 0 < size < 10 ^ 15 ->
  free_list_at w (free_list_head w) nodes ->
  Forall (fun n => snd n < size) nodes ->
  (List.length nodes < 2 ^ 64)%nat ->
  end_ptr w <= free_ptr w + total_size size ->
  exists w', malloc mmap_result size w = Ret NULL w' /\ same_allocator w w'.
Proof.
  intros (Hf & Hs & Hlo & Hhi & He) Hsz Hl Hfit Hn Hfull.
  destruct (malloc_on_heap mmap_result size w Hf Hsz) as [text ->].
  rewrite (nothing_fits_search size w nodes text Hl Hfit Hn).
  exists (set_out text w). split; [|repeat split].
  apply carve_out_of_space. cbn [free_ptr end_ptr set_out].
  destruct (sizes_small size Hsz) as (Hb & _ & Ht).
  assert (P : 10 ^ 15 = 1000000000000000) by reflexivity.
  assert (Q : 2 ^ 63 = 9223372036854775808) by reflexivity.
  rewrite wrap64_small; [exact Hfull|]. unfold word.
  change (2 ^ 64) with 18446744073709551616. lia.
Qed.

Lemma read64_ext (m m' : memory) (a : Z) :
  (forall x, a <= x < a + 8 -> m' x = m x) -> read64 m' a = read64 m a.
Proof.
  intros H. unfold read64. rewrite !H by lia. reflexivity.
Qed.

(** The list is still there when the bytes of its headers and the bounds of
    the heap are as they were. *)
Lemma free_list_at_preserved (w w' : state) (nodes : list (Z * Z)) :
  start_ptr w' = start_ptr w -> end_ptr w' = end_ptr w ->
  forall head,
    Forall (fun n => forall x, fst n <= x < fst n + sizeof_header_s ->
                               mem w' x = mem w x) nodes ->
    free_list_at w head nodes -> free_list_at w' head nodes.
Proof.
  intros Hs He. induction nodes as [|[a sz] rest IH]; intros head Hf Hl;
    cbn [free_list_at] in *; [exact Hl|].
  destruct Hl as (H1 & H2 & H3 & H4 & H5).
  inversion Hf as [|? ? Ha Hf']; subst. cbn [fst] in Ha.
  unfold sizeof_header_s, off_size, off_next in *.
  assert (E1 : read64 (mem w') (a + 0) = read64 (mem w) (a + 0))
    by (apply read64_ext; intros; apply Ha; lia).
  assert (E2 : read64 (mem w') (a + 8) = read64 (mem w) (a + 8))
    by (apply read64_ext; intros; apply Ha; lia).
  repeat split; try assumption.
  - unfold mapped in *. rewrite Hs, He. exact H3.
  - rewrite E2. apply IH; assumption.
Qed.

Lemma nothing_fits_carve (mmap_result size : Z) (w : state)
        (nodes : list (Z * Z)) :
  heap_ok w -> 0 < size < 10 ^ 15 ->
  free_list_at w (free_list_head w) nodes ->
  Forall (fun n => snd n < size) nodes ->
  (List.length nodes < 2 ^ 64)%nat ->
  free_ptr w + total_size size < end_ptr w ->
  exists w',
    malloc mmap_result size w
    = Ret (free_ptr w + sizeof_header_s * sizeof_header_s) w' /\
    read64 (mem w') (free_ptr w + off_size) = size /\
    read64 (mem w') (free_ptr w + off_next) = NULL /\
    free_ptr w' = free_ptr w + size + sizeof_header_s /\
    (forall a, a < free_ptr w \/ free_ptr w + sizeof_header_s <= a ->
               mem w' a = mem w a) /\
    start_ptr w' = start_ptr w /\ end_ptr w' = end_ptr w /\
    free_list_head w' = free_list_head w /\
    heap_ok w' /\
    (Forall (fun n => apart (free_ptr w) (fst n)) nodes ->
     free_list_at w' (free_list_head w') nodes).
Proof.
  intros (Hf & Hs & Hlo & Hhi & He) Hsz Hl Hfit Hn Hroom.
  destruct (malloc_on_heap mmap_result size w Hf Hsz) as [text ->].
  rewrite (nothing_fits_search size w nodes text Hl Hfit Hn).
  destruct (sizes_small size Hsz) as (Hb & _ & Ht).
  assert (P : 10 ^ 15 = 1000000000000000) by reflexivity.
  assert (Q : 2 ^ 63 = 9223372036854775808) by reflexivity.
  assert (Q' : 2 ^ 64 = 18446744073709551616) by reflexivity.
  destruct (carve_new_block size (set_out text w))
    as (w' & H1 & H2 & H3 & H4 & H5 & H6 & H7 & H8 & H9).
  { unfold word. lia. }
  { cbn [free_ptr end_ptr set_out]. rewrite wrap64_small; [exact Hroom|].
    unfold word. lia. }
  { apply mapped_true; cbn [free_ptr start_ptr end_ptr set_out];
      unfold sizeof_header_s; lia. }
  cbn [free_ptr start_ptr end_ptr free_list_head mem set_out] in *.
  assert (Hp : header_ptr_add (free_ptr w) sizeof_header_s
               = free_ptr w + sizeof_header_s * sizeof_header_s).
  { unfold header_ptr_add, sizeof_header_s. apply wrap64_small.
    unfold word. lia. }
  assert (Hfp : free_ptr w' = free_ptr w + size + sizeof_header_s).
  { rewrite H4. unfold void_ptr_add, sizeof_header_s.
    rewrite (wrap64_small (free_ptr w + size)) by (unfold word; lia).
    apply wrap64_small. unfold word. lia. }
  exists w'. rewrite <- Hp.
  repeat split; try assumption.
  - rewrite Hfp. unfold NULL, sizeof_header_s. lia.
  - congruence.
  - rewrite Hfp, H6. unfold sizeof_header_s. lia.
  - rewrite Hfp, H7. unfold sizeof_header_s in *. lia.
  - congruence.
  - intros Hap. rewrite H8.
    apply (free_list_at_preserved w w' nodes H6 H7); [|exact Hl].
    clear - Hap H5. induction Hap as [|n rest Hn _ IH]; constructor.
    + intros x Hx. apply H5. unfold apart in Hn. lia.
    + exact IH.
Qed.

(** X5.  When no header of the free list is large enough and the test for space
    passes, [malloc] writes a header at [free_ptr] that records the requested
    size, returns the address 256 bytes after it and moves [free_ptr] by the
    requested size plus 16.  Only the 16 bytes of the new header are written;
    the free list is as it was when its headers are apart from the new
    one. *)
Theorem malloc_nothing_fits_carves (mmap_result size : Z) (w : state)
        (nodes : list (Z * Z)) :
  heap_ok w -> 0 < size < 10 ^ 15 ->
  free_list_at w (free_list_head w) nodes ->
  Forall (fun n => snd n < size) nodes ->
  (List.length nodes < 2 ^ 64)%nat ->
  free_ptr w + total_size size < end_ptr w ->
  exists w',
    malloc mmap_result size w
    = Ret (free_ptr w + sizeof_header_s * sizeof_header_s) w' /\
    read64 (mem w') (free_ptr w + off_size) = size /\
    read64 (mem w') (free_ptr w + off_next) = NULL /\
    free_ptr w' = free_ptr w + size + sizeof_header_s /\
    (forall a, a < free_ptr w \/ free_ptr w + sizeof_header_s <= a ->
               mem w' a = mem w a) /\
    start_ptr w' = start_ptr w /\ end_ptr w' = end_ptr w /\
    free_list_head w' = free_list_head w /\
    heap_ok w' /\
    (Forall (fun n => apart (free_ptr w) (fst n)) nodes ->
     free_list_at w' (free_list_head w') nodes).
Proof. apply nothing_fits_carve. Qed.

(* ================================================================== *)
(** ** First fit behind the head *)

Lemma free_list_at_out (w : state) (text : string) (nodes : list (Z * Z)) :
  forall head,
    free_list_at w head nodes -> free_list_at (set_out text w) head nodes.
Proof.
  intros head. apply free_list_at_preserved; try reflexivity.
  apply Forall_forall. intros; reflexivity.
Qed.

(** The header visited last is one of the list. *)
Lemma last_visited_mapped (w : state) (b : Z * Z) (before rest : list (Z * Z)) :
  forall head d,
    free_list_at w head ((b :: before) ++ rest) ->
    mapped w (last (map fst (b :: before)) d) sizeof_header_s = true.
Proof.
  revert b. induction before as [|c before IH]; intros [b sb] head d Hl;
    cbn [app free_list_at map fst] in *.
  - cbn [last]. tauto.
  - destruct Hl as (_ & _ & _ & _ & Hl).
    rewrite last_cons. change (c :: before ++ rest)
      with ((c :: before) ++ rest) in Hl.
    destruct c as [c sc]. apply (IH (c, sc) _ b) in Hl. exact Hl.
Qed.

Lemma all_apart_app_inv (l1 l2 : list Z) (a : Z) :
  all_apart (l1 ++ a :: l2) ->
  all_apart (l1 ++ l2) /\ Forall (fun b => apart b a) l1 /\
  Forall (apart a) l2.
Proof.
  induction l1 as [|b l1 IH]; cbn [app all_apart]; intros [H1 H2].
  - repeat split; [exact H2 | constructor | exact H1].
  - destruct (IH H2) as (I1 & I2 & I3).
    rewrite Forall_app in H1. destruct H1 as [H1a H1b].
    inversion H1b as [|? ? Hba H1c]; subst.
    repeat split; try assumption.
    + rewrite Forall_app. split; assumption.
    + constructor; assumption.
Qed.

Lemma list_head_word (w : state) (head : Z) (nodes : list (Z * Z)) :
  0 <= start_ptr w -> end_ptr w <= 2 ^ 64 ->
  free_list_at w head nodes -> word head.
Proof.
  intros Hs He Hl. destruct nodes as [|[a sz] rest]; cbn [free_list_at] in Hl.
  - subst. unfold word, NULL. lia.
  - destruct Hl as (-> & _ & Hm & _). apply mapped_inv in Hm.
    unfold word, sizeof_header_s in *. lia.
Qed.

Lemma last_in {A : Type} (x : A) (l : list A) (d : A) :
  In (last (x :: l) d) (x :: l).
Proof.
  revert x d. induction l as [|y l IH]; intros x d.
  - left. reflexivity.
  - right. rewrite last_cons. apply IH.
Qed.

(** After the store that unlinks the header [a], the list is the old list
    without it, provided the headers are pairwise apart. *)
Lemma unlinked_list (w : state) (a sz : Z) (after : list (Z * Z)) :
  0 <= start_ptr w -> end_ptr w <= 2 ^ 64 ->
  forall (before : list (Z * Z)) (b : Z * Z) head d,
    free_list_at w head ((b :: before) ++ (a, sz) :: after) ->
    all_apart (map fst ((b :: before) ++ (a, sz) :: after)) ->
    free_list_at
      (set_mem (write64 (mem w)
                        (last (map fst (b :: before)) d + off_next)
                        (read64 (mem w) (a + off_next))) w)
      head ((b :: before) ++ after).
Proof.
  intros Hs He.
  induction before as [|c before IH]; intros [b sb] head d Hl Hap.
  - cbn [app free_list_at map fst last all_apart] in *.
    destruct Hl as (-> & Hb & Hm & Hsz & Hnext & Ha & Hma & Hsa & Hafter).
    destruct Hap as (Hap1 & Hap2 & Hap3).
    apply Forall_cons_iff in Hap1 as [Hba Hbafter].
    assert (Hw : word (read64 (mem w) (a + off_next)))
      by (eapply list_head_word; eassumption).
    unfold off_size, off_next, sizeof_header_s in *.
    cbn [mem set_mem].
    repeat split; try assumption.
    + rewrite <- Hsz. apply read64_write64_other. lia.
    + rewrite read64_write64 by exact Hw.
      eapply free_list_at_preserved. 4: exact Hafter.
      1, 2: reflexivity.
      rewrite Forall_map in Hbafter.
      eapply Forall_impl; [|exact Hbafter].
      intros n Hn x Hx. cbn [mem set_mem]. apply write64_other.
      unfold apart, sizeof_header_s in *. lia.
  - change ((b, sb) :: c :: before) with ((b, sb) :: (c :: before)) in *.
    cbn [app free_list_at map fst all_apart] in Hl, Hap.
    destruct Hl as (-> & Hb & Hm & Hsz & Hrest).
    destruct Hap as (Hap1 & Hap2).
    change (map fst ((b, sb) :: c :: before))
      with (b :: map fst (c :: before)).
    rewrite last_cons.
    change (c :: before ++ (a, sz) :: after)
      with ((c :: before) ++ (a, sz) :: after) in Hrest.
    change (fst c :: map fst (before ++ (a, sz) :: after))
      with (map fst ((c :: before) ++ (a, sz) :: after)) in Hap1, Hap2.
    pose proof (IH c _ b Hrest Hap2) as Hind.
    assert (Hbp : apart b (last (map fst (c :: before)) b)).
    { rewrite Forall_forall in Hap1. apply Hap1.
      rewrite map_app. apply in_or_app. left.
      change (map fst (c :: before)) with (fst c :: map fst before).
      apply last_in. }
    remember (last (map fst (c :: before)) b) as pred eqn:Ep. clear Ep.
    cbn [app free_list_at mem set_mem].
    unfold apart, off_size, off_next, sizeof_header_s in *.
    repeat split; try assumption.
    + rewrite <- Hsz. apply read64_write64_other. lia.
    + rewrite (read64_write64_other (mem w) (pred + 8) _ (b + 8)) by lia.
      exact Hind.
Qed.

(** X6.  When the first header that is large enough lies behind the head of the
    free list, [malloc] returns the address 256 bytes after that header and
    stores the header's [next] field into the [next] field of the header
    before it.  Nothing else is written, [free_ptr] does not move, and when
    the headers of the list are pairwise apart the list afterwards is the
    old list without the chosen header, in the same order. *)
Theorem malloc_first_fit_behind_head (mmap_result size : Z) (w : state)
        (b : Z * Z) (before : list (Z * Z)) (a sz : Z)
        (after : list (Z * Z)) :
  heap_ok w -> 0 < size < 10 ^ 15 ->
  free_list_at w (free_list_head w) ((b :: before) ++ (a, sz) :: after) ->
  Forall (fun n => snd n < size) (b :: before) -> size <= sz ->
  (List.length (b :: before) < 2 ^ 64)%nat ->
  exists w',
    malloc mmap_result size w
    = Ret (a + sizeof_header_s * sizeof_header_s) w' /\
    free_ptr w' = free_ptr w /\ start_ptr w' = start_ptr w /\
    end_ptr w' = end_ptr w /\ free_list_head w' = free_list_head w /\
    (forall x, mem w' x
               = write64 (mem w)
                   (last (map fst (b :: before)) NULL + off_next)
                   (read64 (mem w) (a + off_next)) x) /\
    (all_apart (map fst ((b :: before) ++ (a, sz) :: after)) ->
     free_list_at w' (free_list_head w') ((b :: before) ++ after)).
Proof.
  intros (Hf & Hs & Hlo & Hhi & He) Hsz Hl Hsmall Hle Hn.
  assert (Q : 2 ^ 63 = 9223372036854775808) by reflexivity.
  assert (Q' : 2 ^ 64 = 18446744073709551616) by reflexivity.
  destruct (malloc_on_heap mmap_result size w Hf Hsz) as [text ->].
  pose proof (free_list_at_out w text _ _ Hl) as Hl'.
  assert (Hh : free_list_head w <> NULL).
  { cbn [app free_list_at] in Hl. destruct b as [b0 sb].
    destruct Hl as (-> & Hb & _). exact Hb. }
  assert (Hpm : mapped (set_out text w)
                  (last (map fst (b :: before)) NULL + off_next) 8 = true).
  { pose proof (last_visited_mapped _ b before _ _ NULL Hl') as Hm.
    apply mapped_header_fields in Hm. tauto. }
  assert (Ham : mapped w a sizeof_header_s = true).
  { clear - Hl. revert Hl. generalize (free_list_head w).
    induction (b :: before) as [|[c sc] l IH]; intros h Hl;
      cbn [app free_list_at] in Hl.
    - tauto.
    - destruct Hl as (_ & _ & _ & _ & Hl). eapply IH. exact Hl. }
  apply mapped_inv in Ham. unfold sizeof_header_s in Ham.
  unfold malloc_search_then_carve.
  unfold bind at 1, get at 1. cbn [free_list_head set_out].
  apply Z.eqb_neq in Hh. rewrite Hh. cbn [negb].
  unfold bind at 1.
  rewrite (while_run_n (search_body size) (S (List.length (b :: before)))
             (free_list_head w, NULL) (set_out text w) _ _
             (search_first_fit size (set_out text w) a sz after (b :: before)
                (free_list_head w) NULL Hl' Hsmall Hle Hpm)) by lia.
  eexists. split.
  { unfold ret, header_ptr_add, sizeof_header_s.
    rewrite wrap64_small by (unfold word; lia). reflexivity. }
  cbn [free_ptr start_ptr end_ptr free_list_head mem set_mem set_out].
  repeat split.
  intros Hap.
  pose proof (unlinked_list w a sz after ltac:(lia) ltac:(lia) before b
                (free_list_head w) NULL Hl Hap) as Hu.
  eapply free_list_at_preserved. 4: exact Hu.
  1, 2: reflexivity.
  apply Forall_forall. intros; reflexivity.
Qed.

(* ================================================================== *)
(** ** Releasing blocks *)

(** The state [free] leaves for a pointer whose header is mapped. *)
Lemma free_computes (w : state) (p : Z) :
  p <> NULL -> 0 <= start_ptr w -> end_ptr w <= 2 ^ 64 ->
  header_in_heap w p ->
  free p w
  = Ret tt (set_mem (write64 (mem w) (p - sizeof_header_s + off_next)
                             (free_list_head w))
                    (set_free_list_head (p - sizeof_header_s) w)).
Proof.
  intros Hp Hs He [Hlo Hhi].
  assert (Hw : void_ptr_add p (- sizeof_header_s) = p - sizeof_header_s).
  { unfold void_ptr_add, sizeof_header_s in *.
    replace (p + - 16) with (p - 16) by lia.
    apply wrap64_small. unfold word. lia. }
  unfold free. apply Z.eqb_neq in Hp. rewrite Hp. rewrite Hw.
  unfold bind, get, modify, store64.
  unfold sizeof_header_s, off_next in *.
  rewrite mapped_true by (unfold set_free_list_head; simpl; lia).
  reflexivity.
Qed.

(** X7.  [free] pushes: when the 16 bytes before [p] are apart from the headers
    of the free list, the list afterwards is the old list with the header at
    [p - 16] in front, its [size] field as it was found. *)
Theorem free_pushes_onto_list (w : state) (p : Z) (nodes : list (Z * Z)) :
  p <> NULL -> 0 < start_ptr w -> end_ptr w <= 2 ^ 64 ->
  header_in_heap w p ->
  free_list_at w (free_list_head w) nodes ->
  Forall (fun n => apart (p - sizeof_header_s) (fst n)) nodes ->
  exists w',
    free p w = Ret tt w' /\
    free_list_at w' (free_list_head w')
      ((p - sizeof_header_s,
        read64 (mem w) (p - sizeof_header_s + off_size)) :: nodes).
Proof.
  intros Hp Hs He Hh Hl Hap.
  rewrite (free_computes w p Hp ltac:(lia) He Hh).
  eexists. split; [reflexivity|].
  pose proof (list_head_word w _ nodes ltac:(lia) He Hl) as Hw.
  destruct Hh as [Hlo Hhi].
  cbn [free_list_at free_list_head mem set_mem set_free_list_head].
  unfold sizeof_header_s, off_next, off_size, NULL in *.
  repeat split.
  - lia.
  - apply mapped_true; simpl; lia.
  - apply read64_write64_other. lia.
  - rewrite read64_write64 by exact Hw.
    eapply free_list_at_preserved. 4: exact Hl.
    1, 2: reflexivity.
    eapply Forall_impl; [|exact Hap].
    intros n Hn x Hx. cbn [mem set_mem set_free_list_head].
    apply write64_other. unfold apart, sizeof_header_s in *. lia.
Qed.

(** X8.  Releasing the same block twice makes its header its own
    successor: after the two calls the head of the free list is the header
    at [p - 16] and the [next] field of that header holds [p - 16] again.  A
    later request larger than the size found in that header then searches the
    free list for ever. *)
Theorem double_free_then_malloc_diverges (mmap_result size : Z) (w : state)
        (p : Z) :
  p <> NULL -> heap_ok w -> header_in_heap w p ->
  0 < size < 10 ^ 15 ->
  read64 (mem w) (p - sizeof_header_s + off_size) < size ->
  exists w2,
    (free p ;; free p) w = Ret tt w2 /\
    free_list_head w2 = p - sizeof_header_s /\
    read64 (mem w2) (p - sizeof_header_s + off_next) = p - sizeof_header_s /\
    read64 (mem w2) (p - sizeof_header_s + off_size)
    = read64 (mem w) (p - sizeof_header_s + off_size) /\
    malloc mmap_result size w2 = Diverge /\
    (free p ;; free p ;; malloc mmap_result size) w = Diverge.
Proof.
  intros Hp (Hf & Hs & Hlo & Hhi & He) Hh Hsz Hlt.
  assert (Q : 2 ^ 63 = 9223372036854775808) by reflexivity.
  assert (Q' : 2 ^ 64 = 18446744073709551616) by reflexivity.
  pose proof (free_computes w p Hp ltac:(lia) ltac:(lia) Hh) as F1.
  set (w1 := set_mem _ _) in F1.
  assert (F2 : free p w1
               = Ret tt (set_mem (write64 (mem w1)
                                          (p - sizeof_header_s + off_next)
                                          (free_list_head w1))
                                 (set_free_list_head (p - sizeof_header_s)
                                                     w1))).
  { apply free_computes; [exact Hp | simpl; lia | simpl; lia | exact Hh]. }
  set (w2 := set_mem _ _) in F2.
  destruct Hh as [Hh1 Hh2].
  unfold sizeof_header_s, off_size, off_next in *.
  assert (Hhead : free_list_head w2 = p - 16) by reflexivity.
  assert (Hsize0 : read64 (mem w2) (p - 16 + 0) = read64 (mem w) (p - 16 + 0)).
  { cbn [mem w2 set_mem w1 set_free_list_head].
    rewrite !read64_write64_other by lia. reflexivity. }
  assert (Hnext0 : read64 (mem w2) (p - 16 + 8) = p - 16).
  { cbn [mem w2 set_mem w1 set_free_list_head free_list_head].
    apply read64_write64. unfold word. lia. }
  assert (Hdiv : malloc mmap_result size w2 = Diverge).
  { destruct (malloc_on_heap mmap_result size w2 Hf Hsz) as [text ->].
    assert (Hm : mapped (set_out text w2) (p - 16) sizeof_header_s = true)
      by (apply mapped_true; simpl; unfold sizeof_header_s; lia).
    assert (Hsize : read64 (mem (set_out text w2)) (p - 16 + off_size)
                    < size).
    { unfold off_size. cbn [mem set_out]. rewrite Hsize0. exact Hlt. }
    assert (Hnext : read64 (mem (set_out text w2)) (p - 16 + off_next)
                    = p - 16).
    { unfold off_next. cbn [mem set_out]. exact Hnext0. }
    assert (Hnn : p - 16 <> NULL) by (unfold NULL; lia).
    unfold malloc_search_then_carve.
    unfold bind at 1, get at 1. cbn [free_list_head set_out]. rewrite Hhead.
    apply Z.eqb_neq in Hnn. rewrite Hnn. cbn [negb].
    apply Z.eqb_neq in Hnn.
    unfold bind at 1.
    rewrite (while_diverges (search_body size) (p - 16, NULL)
               (p - 16, p - 16) (set_out text w2)); [reflexivity| |].
    - rewrite search_body_skip by assumption. rewrite Hnext. reflexivity.
    - rewrite search_body_skip by assumption. rewrite Hnext. reflexivity. }
  assert (F12 : (free p ;; free p) w = Ret tt w2).
  { unfold bind. rewrite F1. exact F2. }
  exists w2. repeat split; try assumption.
  unfold bind at 1. rewrite F1. unfold bind at 1. rewrite F2. exact Hdiv.
Qed.

(* ================================================================== *)
(** ** The bounds of [debug_int] *)

(** A value of more than [i] digits makes the loop store below the
    buffer. *)
Lemma digits_loop_overflow (i : nat) :
  forall value buffer,
    10 ^ Z.of_nat i <= Z.abs value -> digits_loop i value buffer = None.
Proof.
  induction i as [|i IH]; intros value buffer H.
  - simpl in *. destruct (value =? 0) eqn:E; [|reflexivity].
    apply Z.eqb_eq in E. lia.
  - rewrite Nat2Z.inj_succ, Z.pow_succ_r in H by lia.
    pose proof (Z.pow_pos_nonneg 10 (Z.of_nat i) ltac:(lia) ltac:(lia)).
    rewrite digits_loop_step by lia. apply IH.
    Z.to_euclidean_division_equations. lia.
Qed.

Lemma debug_int_text_overflow (stack : list ascii) (value : Z) :
  10 ^ 15 <= Z.abs value -> debug_int_text stack value = None.
Proof.
  intros H. unfold debug_int_text.
  rewrite (digits_loop_overflow 15 value _ H). reflexivity.
Qed.

Lemma malloc_overflow (mmap_result size : Z) (w : state) :
  10 ^ 15 <= Z.abs (to_long size) ->
  malloc mmap_result size w = Undefined.
Proof.
  intros H. unfold malloc. unfold bind at 1, debug at 1, modify at 1.
  unfold bind at 1, debug_int at 1.
  rewrite (debug_int_text_overflow blank_stack _ H). reflexivity.
Qed.

(** X15.  [debug_int] stays inside its 16-byte buffer exactly for the values of at
    most 15 digits, whatever their sign. *)
Theorem debug_int_defined_iff (stack : list ascii) (value : Z) :
  List.length stack = 16%nat ->
  (debug_int_text stack value = None <-> 10 ^ 15 <= Z.abs value).
Proof.
  intros Hlen. split.
  - intros H. destruct (Z_lt_le_dec (Z.abs value) (10 ^ 15)) as [Hlt|Hge];
      [|exact Hge].
    destruct (debug_int_text_total stack value Hlen Hlt) as [s Hs].
    congruence.
  - intros H. apply debug_int_text_overflow. exact H.
Qed.

(** X16.  A request whose size, read as a [long], has more than 15 digits is
    undefined before [malloc] has looked at the heap: [debug_int] runs out of
    its buffer. *)
Theorem malloc_huge_request_undefined (mmap_result size : Z) (w : state) :
  10 ^ 15 <= Z.abs (to_long size) ->
  malloc mmap_result size w = Undefined.
Proof.
  intros H. unfold malloc, bind, debug, modify, debug_int.
  rewrite (debug_int_text_overflow blank_stack _ H). reflexivity.
Qed.

(* ================================================================== *)
(** ** First use *)

(** X1.  On first use, when the reservation succeeds, [init()] records the bounds
    of [HEAP_SIZE] fresh zero bytes and puts [free_ptr] at their start; the
    free list and the rest of memory are untouched, and every later [init()]
    does nothing, whatever [mmap] would answer. *)
Theorem init_reserves_once (mmap_result : Z) (w : state) :
  free_ptr w = NULL -> 0 < mmap_result ->
  mmap_result + HEAP_SIZE <= 2 ^ 63 ->
  exists w',
    init mmap_result w = Ret tt w' /\
    heap_ok w' /\
    free_ptr w' = mmap_result /\ start_ptr w' = mmap_result /\
    end_ptr w' = mmap_result + HEAP_SIZE /\
    free_list_head w' = free_list_head w /\
    (forall a, mmap_result <= a < mmap_result + HEAP_SIZE -> mem w' a = 0) /\
    (forall a, a < mmap_result \/ mmap_result + HEAP_SIZE <= a ->
               mem w' a = mem w a) /\
    (forall again, init again w' = Ret tt w').
Proof.
  intros Hf Hpos Hfit.
  assert (Q : 2 ^ 63 = 9223372036854775808) by reflexivity.
  assert (Q' : 2 ^ 64 = 18446744073709551616) by reflexivity.
  assert (Hs : HEAP_SIZE = 2147483648) by reflexivity.
  assert (Hm : mmap_result <> MAP_FAILED) by (unfold MAP_FAILED; lia).
  exists (reserved mmap_result w).
  assert (He : wrap64 (mmap_result + HEAP_SIZE) = mmap_result + HEAP_SIZE)
    by (apply wrap64_small; unfold word; lia).
  split; [apply init_first_use; assumption|].
  unfold heap_ok, reserved. cbn [free_ptr start_ptr end_ptr free_list_head mem].
  rewrite He. unfold NULL.
  repeat split; try lia.
  - intros a Ha.
    replace (mmap_result <=? a) with true by (symmetry; apply Z.leb_le; lia).
    replace (a <? mmap_result + HEAP_SIZE) with true
      by (symmetry; apply Z.ltb_lt; lia).
    reflexivity.
  - intros a Ha.
    destruct (mmap_result <=? a) eqn:E1;
      destruct (a <? mmap_result + HEAP_SIZE) eqn:E2; try reflexivity.
    apply Z.leb_le in E1. apply Z.ltb_lt in E2. lia.
  - intros again. apply init_idempotent. cbn [free_ptr]. unfold NULL. lia.
Qed.

(** X2.  When the reservation fails on first use, [malloc] prints
    [malloc(], the digits of the size and [) called], then [init()] prints
    [mmap failed!] and the process exits with status 1; memory, the bounds
    and the free list are untouched. *)
Theorem reservation_failure_exits (size : Z) (w : state) :
  free_ptr w = NULL -> Z.abs (to_long size) < 10 ^ 15 ->
  exists w' digits,
    debug_int_text blank_stack (to_long size) = Some digits /\
    malloc MAP_FAILED size w = Exit 1 w' /\
    out w' = ((((out w ++ "malloc(") ++ digits) ++ ") called" ++ newline)
              ++ "mmap failed!" ++ newline)%string /\
    mem w' = mem w /\ free_list_head w' = free_list_head w /\
    start_ptr w' = start_ptr w /\ end_ptr w' = end_ptr w.
Proof.
  intros Hf Hs.
  destruct (debug_int_text_total blank_stack (to_long size) eq_refl Hs)
    as [s Hd].
  unfold malloc. unfold bind at 1, debug at 1, modify at 1.
  unfold bind at 1, debug_int at 1. rewrite Hd.
  unfold debug at 1, modify at 1.
  unfold bind at 1, debug at 1, modify at 1.
  unfold bind at 1, init, bind at 1, get at 1.
  cbn [free_ptr set_out]. rewrite Hf. cbn.
  eexists. exists s. split; [reflexivity|]. split; [reflexivity|].
  cbn [out mem free_list_head start_ptr end_ptr set_out set_free_ptr].
  repeat split.
Qed.

(* ================================================================== *)
(** ** What every call keeps *)

(** The bounds of the heap and the head of the free list are as in [w0];
    so is [free_ptr]. *)
Lemma search_body_globals (size : Z) (s : Z * Z) (w : state)
      (r : Z * Z + option Z) (w' : state) :
  search_body size s w = Ret r w' ->
  free_ptr w' = free_ptr w /\ start_ptr w' = start_ptr w /\
  end_ptr w' = end_ptr w /\ free_list_head w' = free_list_head w.
Proof.
  destruct s as [current previous]. intros H. unfold search_body in H.
  destruct (current =? NULL); [inversion H; auto|].
  unfold bind at 1 in H. unfold load64 at 1 in H.
  destruct (mapped w (current + off_size) 8); [|discriminate].
  destruct (read64 (mem w) (current + off_size) >=? size).
  - unfold bind at 1 in H. unfold load64 in H.
    destruct (mapped w (current + off_next) 8); [|discriminate].
    unfold bind at 1 in H. unfold store64 in H.
    destruct (mapped w (previous + off_next) 8); [|discriminate].
    inversion H; subst. auto.
  - unfold bind at 1 in H. unfold load64 in H.
    destruct (mapped w (current + off_next) 8); [|discriminate].
    inversion H; auto.
Qed.

Lemma while_search_globals (size : Z) (s : Z * Z) (w : state)
      (found : option Z) (w' : state) :
  while (search_body size) s w = Ret found w' ->
  free_ptr w' = free_ptr w /\ start_ptr w' = start_ptr w /\
  end_ptr w' = end_ptr w /\ free_list_head w' = free_list_head w.
Proof.
  intros H.
  refine (while_invariant (search_body size)
            (fun w1 => free_ptr w1 = free_ptr w /\
                       start_ptr w1 = start_ptr w /\
                       end_ptr w1 = end_ptr w /\
                       free_list_head w1 = free_list_head w)
            (fun _ w1 => free_ptr w1 = free_ptr w /\
                         start_ptr w1 = start_ptr w /\
                         end_ptr w1 = end_ptr w /\
                         free_list_head w1 = free_list_head w)
            _ s w found w' _ H); [|auto].
  intros s0 w0 r w1 (P1 & P2 & P3 & P4) Hb.
  apply search_body_globals in Hb as (B1 & B2 & B3 & B4).
  destruct r; repeat split; congruence.
Qed.

(** A [malloc] that returns, for a size that is not negative as a [long],
    leaves a heap whose bounds and free-list head are unchanged and whose
    [free_ptr] is still between the bounds. *)
Lemma malloc_keeps_heap (mmap_result size q : Z) (w w' : state) :
  heap_ok w -> 0 <= size < 2 ^ 63 ->
  malloc mmap_result size w = Ret q w' ->
  heap_ok w' /\ start_ptr w' = start_ptr w /\ end_ptr w' = end_ptr w /\
  free_list_head w' = free_list_head w /\ free_ptr w <= free_ptr w'.
Proof.
  intros Hok Hsz H. pose proof Hok as (Hf & Hs & Hlo & Hhi & He).
  assert (Q : 2 ^ 63 = 9223372036854775808) by reflexivity.
  assert (Q' : 2 ^ 64 = 18446744073709551616) by reflexivity.
  assert (P : 10 ^ 15 = 1000000000000000) by reflexivity.
  destruct (Z.eq_dec size 0) as [->|Hnz].
  { unfold malloc in H.
    unfold bind at 1, debug at 1, modify at 1 in H.
    unfold bind at 1 in H. change (to_long 0) with 0 in H.
    rewrite debug_int_zero in H.
    unfold bind at 1, debug at 1, modify at 1 in H.
    unfold bind at 1 in H. rewrite init_idempotent in H by exact Hf.
    inversion H; subst. cbn. repeat split; try assumption; lia. }
  destruct (Z_lt_le_dec size (10 ^ 15)) as [Hsmall|Hbig].
  2: { rewrite malloc_overflow in H; [discriminate|].
       rewrite to_long_small by lia. lia. }
  destruct (malloc_on_heap mmap_result size w Hf ltac:(lia)) as [text E].
  rewrite E in H. clear E.
  unfold malloc_search_then_carve in H.
  unfold bind at 1, get at 1 in H. unfold bind at 1 in H.
  set (w0 := set_out text w) in *.
  assert (Hcarve : forall w1,
             free_ptr w1 = free_ptr w /\ start_ptr w1 = start_ptr w /\
             end_ptr w1 = end_ptr w /\ free_list_head w1 = free_list_head w ->
             carve size w1 = Ret q w' ->
             heap_ok w' /\ start_ptr w' = start_ptr w /\
             end_ptr w' = end_ptr w /\
             free_list_head w' = free_list_head w /\
             free_ptr w <= free_ptr w').
  { clear H. intros w1 (G1 & G2 & G3 & G4) H. unfold carve in H.
    unfold bind at 1, get at 1 in H. unfold bind at 1, get at 1 in H.
    destruct (sizes_small size ltac:(lia)) as (Hb & _ & Ht).
    rewrite G1, G3 in H.
    destruct (wrap64 (free_ptr w + total_size size) >=? end_ptr w) eqn:Et.
    - inversion H; subst. unfold heap_ok. rewrite G1, G2, G3.
      repeat split; try assumption; lia.
    - rewrite Z.geb_leb in Et. apply Z.leb_gt in Et.
      rewrite wrap64_small in Et by (unfold word; lia).
      unfold bind at 1, store64 at 1 in H.
      destruct (mapped w1 (free_ptr w + off_size) 8); [|discriminate].
      unfold bind at 1, store64 at 1 in H.
      destruct (mapped _ (free_ptr w + off_next) 8); [|discriminate].
      unfold bind, modify, ret in H. inversion H; subst.
      cbn [free_ptr start_ptr end_ptr free_list_head set_free_ptr set_mem].
      unfold heap_ok.
      cbn [free_ptr start_ptr end_ptr free_list_head set_free_ptr set_mem].
      unfold void_ptr_add, sizeof_header_s in *.
      rewrite (wrap64_small (free_ptr w + size)) by (unfold word; lia).
      rewrite wrap64_small by (unfold word; lia).
      unfold NULL. rewrite G2, G3, G4. repeat split; lia. }
  assert (G0 : free_ptr w0 = free_ptr w /\ start_ptr w0 = start_ptr w /\
               end_ptr w0 = end_ptr w /\
               free_list_head w0 = free_list_head w) by (cbn; auto).
  destruct (negb (free_list_head w0 =? NULL)).
  - destruct (while (search_body size) (free_list_head w0, NULL) w0)
      as [found w1| | |] eqn:Ew; try discriminate.
    apply while_search_globals in Ew.
    assert (G1 : free_ptr w1 = free_ptr w /\ start_ptr w1 = start_ptr w /\
                 end_ptr w1 = end_ptr w /\
                 free_list_head w1 = free_list_head w).
    { destruct Ew as (A & B & C & D), G0 as (A0 & B0 & C0 & D0).
      repeat split; congruence. }
    destruct found as [p|].
    + inversion H; subst. destruct G1 as (A & B & C & D).
      unfold heap_ok. rewrite A, B, C, D. repeat split; try assumption; lia.
    + apply (Hcarve w1 G1 H).
  - apply (Hcarve w0 G0 H).
Qed.

Lemma free_keeps_heap (p : Z) (u : unit) (w w' : state) :
  free p w = Ret u w' ->
  free_ptr w' = free_ptr w /\ start_ptr w' = start_ptr w /\
  end_ptr w' = end_ptr w.
Proof.
  intros H. unfold free in H. destruct (p =? NULL); [inversion H; auto|].
  unfold bind, get, modify, store64 in H.
  destruct (mapped _ _ 8); [|discriminate]. inversion H; subst. auto.
Qed.

Lemma heap_kept_trans (w1 w2 w3 : state) :
  heap_kept w1 w2 -> heap_kept w2 w3 -> heap_kept w1 w3.
Proof.
  intros (A & B & C & D) (A' & B' & C' & D'). unfold heap_kept.
  split; [exact A'|]. repeat split; try congruence. lia.
Qed.

Lemma heap_kept_same (w w' : state) :
  heap_ok w -> free_ptr w' = free_ptr w -> start_ptr w' = start_ptr w ->
  end_ptr w' = end_ptr w -> heap_kept w w'.
Proof.
  intros (A & B & C & D & E) F1 F2 F3. unfold heap_kept, heap_ok.
  rewrite F1, F2, F3. repeat split; try assumption; lia.
Qed.

Lemma malloc_heap_kept (mmap_result size q : Z) (w w' : state) :
  heap_ok w -> 0 <= size < 2 ^ 63 ->
  malloc mmap_result size w = Ret q w' -> heap_kept w w'.
Proof.
  intros Hok Hsz H.
  destruct (malloc_keeps_heap _ _ _ _ _ Hok Hsz H) as (A & B & C & _ & D).
  unfold heap_kept. auto.
Qed.

Lemma free_heap_kept (p : Z) (u : unit) (w w' : state) :
  heap_ok w -> free p w = Ret u w' -> heap_kept w w'.
Proof.
  intros Hok H. apply free_keeps_heap in H as (F1 & F2 & F3).
  apply heap_kept_same; assumption.
Qed.

Lemma calloc_heap_kept (mmap_result nmemb size q : Z) (w w' : state) :
  heap_ok w -> wrap64 (nmemb * size) < 2 ^ 63 ->
  calloc mmap_result nmemb size w = Ret q w' -> heap_kept w w'.
Proof.
  intros Hok Hsz H. unfold calloc in H. unfold bind at 1 in H.
  destruct (malloc mmap_result (wrap64 (nmemb * size)) w)
    as [q1 w1| | |] eqn:Em; try discriminate.
  assert (Hnn : 0 <= wrap64 (nmemb * size))
    by (unfold wrap64; apply Z.mod_pos_bound; reflexivity).
  pose proof (malloc_heap_kept _ _ _ _ _ Hok (conj Hnn Hsz) Em) as K.
  apply (heap_kept_trans w w1 w' K).
  destruct K as (K1 & _).
  unfold bind at 1 in H.
  destruct (negb (q1 =? NULL)).
  - unfold memset_zero in H.
    destruct (wrap64 (nmemb * size) =? 0).
    + inversion H; subst. apply heap_kept_same; auto.
    + destruct (mapped w1 q1 _); [|discriminate].
      inversion H; subst. apply heap_kept_same; auto.
  - inversion H; subst. apply heap_kept_same; auto.
Qed.

Lemma realloc_heap_kept (mmap_result p size q : Z) (w w' : state) :
  heap_ok w -> 0 <= size < 2 ^ 63 ->
  realloc mmap_result p size w = Ret q w' -> heap_kept w w'.
Proof.
  intros Hok Hsz H. unfold realloc in H.
  destruct (p =? NULL); [eapply malloc_heap_kept; eassumption|].
  destruct (size =? 0).
  { unfold bind in H. destruct (free p w) as [u w1| | |] eqn:Ef;
      try discriminate.
    inversion H; subst. eapply free_heap_kept; eassumption. }
  unfold bind at 1, load64 at 1 in H.
  destruct (mapped w _ 8); [|discriminate].
  destruct (size <=? _).
  { unfold bind, store64 in H. destruct (mapped w _ 8); [|discriminate].
    inversion H; subst. apply heap_kept_same; auto. }
  unfold bind at 1 in H.
  destruct (malloc mmap_result size w) as [q1 w1| | |] eqn:Em;
    try discriminate.
  pose proof (malloc_heap_kept _ _ _ _ _ Hok Hsz Em) as K.
  apply (heap_kept_trans w w1 w' K). destruct K as (K1 & _).
  unfold bind at 1 in H.
  destruct (negb (q1 =? NULL)).
  - unfold bind at 1 in H. unfold memcpy in H.
    set (s := read64 (mem w) _) in *.
    destruct (s =? 0).
    + destruct (free p w1) as [u w2| | |] eqn:Ef; try discriminate.
      inversion H; subst. eapply free_heap_kept; eassumption.
    + destruct (mapped w1 q1 s && mapped w1 p s
                && ((q1 + s <=? p) || (p + s <=? q1))); [|discriminate].
      match type of H with
      | context [free p ?w2] =>
          destruct (free p w2) as [u w3| | |] eqn:Ef; try discriminate;
          assert (K2 : heap_kept w1 w2) by (apply heap_kept_same; auto)
      end.
      inversion H; subst.
      eapply heap_kept_trans; [exact K2|].
      eapply free_heap_kept; [|exact Ef]. apply K2.
  - inversion H; subst. apply heap_kept_same; auto.
Qed.

(** X9.  The region is reserved once and never resized: every call of [malloc],
    [free], [calloc] or [realloc] that returns, for sizes that are not
    negative as a [long], leaves [start_ptr] and [end_ptr] as they were and
    [free_ptr] between them, never lower than before. *)
Theorem heap_bounds_invariant (mmap_result : Z) (w : state) :
  heap_ok w ->
  (forall size q w',
      0 <= size < 2 ^ 63 -> malloc mmap_result size w = Ret q w' ->
      heap_kept w w') /\
  (forall p u w', free p w = Ret u w' -> heap_kept w w') /\
  (forall nmemb size q w',
      wrap64 (nmemb * size) < 2 ^ 63 ->
      calloc mmap_result nmemb size w = Ret q w' -> heap_kept w w') /\
  (forall p size q w',
      0 <= size < 2 ^ 63 -> realloc mmap_result p size w = Ret q w' ->
      heap_kept w w').
Proof.
  intros Hok. split; [|split; [|split]].
  - intros size q w' Hsz H. eapply malloc_heap_kept; eassumption.
  - intros p u w' H. eapply free_heap_kept; eassumption.
  - intros nmemb size q w' Hsz H. eapply calloc_heap_kept; eassumption.
  - intros p size q w' Hsz H. eapply realloc_heap_kept; eassumption.
Qed.

(* ================================================================== *)
(** ** [calloc] *)

(** X10.  When no free block fits and the heap has room for 256 bytes and the
    payload behind [free_ptr], [calloc] returns the new block with every byte
    of the payload zero; the new header records the byte count and only
    header and payload are written. *)
Theorem calloc_zero_fills_new_block (mmap_result nmemb size : Z) (w : state)
        (nodes : list (Z * Z)) :
  let n := wrap64 (nmemb * size) in
  let q := free_ptr w + sizeof_header_s * sizeof_header_s in
  heap_ok w -> 0 < n < 10 ^ 15 ->
  free_list_at w (free_list_head w) nodes ->
  Forall (fun node => snd node < n) nodes ->
  (List.length nodes < 2 ^ 64)%nat ->
  q + n <= end_ptr w ->
  exists w',
    calloc mmap_result nmemb size w = Ret q w' /\
    (forall x, q <= x < q + n -> mem w' x = 0) /\
    read64 (mem w') (free_ptr w + off_size) = n /\
    free_ptr w' = free_ptr w + n + sizeof_header_s /\
    (forall x, x < free_ptr w \/
               (free_ptr w + sizeof_header_s <= x < q) \/ q + n <= x ->
               mem w' x = mem w x).
Proof.
  intros n q Hok Hn Hl Hfit Hlen Hroom.
  pose proof Hok as (Hf & Hs & Hlo & Hhi & He).
  destruct (sizes_small n Hn) as (Hb & _ & Ht).
  unfold sizeof_header_s, off_size in *.
  assert (Hspace : free_ptr w + total_size n < end_ptr w) by (subst q; lia).
  destruct (nothing_fits_carve mmap_result n w nodes Hok Hn Hl Hfit Hlen
              Hspace)
    as (w1 & H1 & H2 & H3 & H4 & H5 & H6 & H7 & H8 & H9 & _).
  unfold sizeof_header_s, off_size in *. fold q in H1.
  unfold calloc. fold n. unfold bind at 1. rewrite H1.
  assert (Hq : q <> NULL) by (subst q; unfold NULL; lia).
  apply Z.eqb_neq in Hq. rewrite Hq. cbn [negb].
  unfold bind at 1, memset_zero.
  replace (n =? 0) with false by (symmetry; apply Z.eqb_neq; lia).
  rewrite mapped_true by (rewrite ?H6, ?H7; subst q; lia).
  eexists. split; [reflexivity|].
  cbn [mem free_ptr set_mem].
  repeat split.
  - intros x Hx.
    replace (q <=? x) with true by (symmetry; apply Z.leb_le; lia).
    replace (x <? q + n) with true by (symmetry; apply Z.ltb_lt; lia).
    reflexivity.
  - rewrite <- H2. apply read64_ext. intros x Hx.
    replace (q <=? x) with false
      by (symmetry; apply Z.leb_gt; subst q; lia).
    reflexivity.
  - exact H4.
  - intros x Hx.
    destruct (q <=? x) eqn:E1; destruct (x <? q + n) eqn:E2; cbn [andb].
    + apply Z.leb_le in E1. apply Z.ltb_lt in E2. subst q. lia.
    + apply H5. subst q. lia.
    + apply H5. apply Z.leb_gt in E1. subst q. lia.
    + apply H5. apply Z.leb_gt in E1. subst q. lia.
Qed.

(** X11.  [malloc] tests the room for one header and the padded size, but hands
    out the address 256 bytes behind [free_ptr]: when the payload of a new
    block runs past [end_ptr], [malloc] has succeeded and the zero-fill of
    [calloc] writes outside the heap. *)
Theorem calloc_past_end_undefined (mmap_result nmemb size : Z) (w : state)
        (nodes : list (Z * Z)) :
  let n := wrap64 (nmemb * size) in
  heap_ok w -> 0 < n < 10 ^ 15 ->
  free_list_at w (free_list_head w) nodes ->
  Forall (fun node => snd node < n) nodes ->
  (List.length nodes < 2 ^ 64)%nat ->
  free_ptr w + total_size n < end_ptr w ->
  end_ptr w < free_ptr w + sizeof_header_s * sizeof_header_s + n ->
  calloc mmap_result nmemb size w = Undefined.
Proof.
  intros n Hok Hn Hl Hfit Hlen Hspace Hpast.
  pose proof Hok as (Hf & Hs & Hlo & Hhi & He).
  destruct (nothing_fits_carve mmap_result n w nodes Hok Hn Hl Hfit Hlen
              Hspace)
    as (w1 & H1 & H2 & H3 & H4 & H5 & H6 & H7 & H8 & H9 & _).
  unfold sizeof_header_s in *.
  unfold calloc. fold n. unfold bind at 1. rewrite H1.
  assert (Hq : free_ptr w + 16 * 16 <> NULL) by (unfold NULL; lia).
  apply Z.eqb_neq in Hq. rewrite Hq. cbn [negb].
  unfold bind at 1, memset_zero.
  replace (n =? 0) with false by (symmetry; apply Z.eqb_neq; lia).
  unfold mapped. rewrite H7.
  replace (free_ptr w + 16 * 16 + n <=? end_ptr w) with false
    by (symmetry; apply Z.leb_gt; lia).
  rewrite andb_false_r. reflexivity.
Qed.

(* ================================================================== *)
(** ** [realloc] *)

Lemma header_address (p : Z) :
  sizeof_header_s <= p <= 2 ^ 64 ->
  void_ptr_add p (- sizeof_header_s) = p - sizeof_header_s.
Proof.
  unfold void_ptr_add, sizeof_header_s. intros H.
  replace (p + - 16) with (p - 16) by lia.
  apply wrap64_small. unfold word. lia.
Qed.

(** X12.  The shrinking branch: when the [size] field 16 bytes before [ptr] covers
    the new size, [realloc] returns [ptr] and stores the 8 bytes of the new
    size at [ptr - 1].  The byte before the payload and the first 7 bytes of
    the payload are overwritten, and the [size] field it has read keeps its
    value. *)
Theorem realloc_shrink_branch (mmap_result p size : Z) (w : state) :
  p <> NULL -> 0 < size < 2 ^ 64 ->
  0 <= start_ptr w -> end_ptr w <= 2 ^ 64 ->
  header_in_heap w p -> p + 7 <= end_ptr w ->
  size <= read64 (mem w) (p - sizeof_header_s + off_size) ->
  exists w',
    realloc mmap_result p size w = Ret p w' /\
    (forall k, 0 <= k < 8 -> mem w' (p - 1 + k) = byte_of size k) /\
    (forall x, x < p - 1 \/ p + 7 <= x -> mem w' x = mem w x) /\
    read64 (mem w') (p - sizeof_header_s + off_size)
    = read64 (mem w) (p - sizeof_header_s + off_size) /\
    free_ptr w' = free_ptr w /\ start_ptr w' = start_ptr w /\
    end_ptr w' = end_ptr w /\ free_list_head w' = free_list_head w /\
    out w' = out w.
Proof.
  intros Hp Hsz Hs He [Hlo Hhi] Hend Hle.
  assert (H1 : void_ptr_add p (- 1) = p - 1).
  { unfold void_ptr_add, sizeof_header_s in *.
    replace (p + - 1) with (p - 1) by lia.
    apply wrap64_small. unfold word. lia. }
  unfold realloc. apply Z.eqb_neq in Hp. rewrite Hp.
  replace (size =? 0) with false by (symmetry; apply Z.eqb_neq; lia).
  rewrite header_address, H1 by (unfold sizeof_header_s in *; lia).
  unfold sizeof_header_s, off_size in *.
  unfold bind at 1, load64. rewrite mapped_true by lia.
  replace (size <=? read64 (mem w) (p - 16 + 0)) with true
    by (symmetry; apply Z.leb_le; exact Hle).
  unfold bind, store64. rewrite mapped_true by lia.
  eexists. split; [reflexivity|]. cbn [mem set_mem free_ptr start_ptr
    end_ptr free_list_head out]. rewrite Z.add_0_r.
  repeat split.
  - intros k Hk. apply write64_at. exact Hk.
  - intros x Hx. apply write64_other. lia.
  - apply read64_write64_other. lia.
Qed.

(** X13.  The growing branch when no block can be had: [realloc] returns [NULL]
    and nothing the allocator owns has changed; the block is not released
    and its bytes are as they were. *)
Theorem realloc_failure_keeps_block (mmap_result p size : Z)
        (w w1 : state) :
  p <> NULL -> 0 < size -> heap_ok w -> header_in_heap w p ->
  read64 (mem w) (p - sizeof_header_s + off_size) < size ->
  malloc mmap_result size w = Ret NULL w1 ->
  realloc mmap_result p size w = Ret NULL w1 /\ same_allocator w w1.
Proof.
  intros Hp Hsz Hok [Hlo Hhi] Hlt Hm.
  pose proof Hok as (Hf & Hs & Hl & Hh & He).
  assert (Q : 2 ^ 63 = 9223372036854775808) by reflexivity.
  assert (Q' : 2 ^ 64 = 18446744073709551616) by reflexivity.
  split.
  - unfold realloc. apply Z.eqb_neq in Hp. rewrite Hp.
    replace (size =? 0) with false by (symmetry; apply Z.eqb_neq; lia).
    rewrite header_address by (unfold sizeof_header_s in *; lia).
    unfold sizeof_header_s, off_size in *.
    unfold bind at 1, load64. rewrite mapped_true by lia.
    replace (size <=? read64 (mem w) (p - 16 + 0)) with false
      by (symmetry; apply Z.leb_gt; exact Hlt).
    unfold bind at 1. rewrite Hm. reflexivity.
  - eapply malloc_null_leaves_allocator; try eassumption; lia.
Qed.

(** X14.  The growing branch when the inner [malloc] hands out a block [q]
    and leaves the state [w1]: [realloc] returns [q]; with [s] the [size]
    field 16 bytes before [ptr], the [s] bytes at [q] are the [s] bytes at
    [ptr] as they are in [w1], that is, as the inner [malloc] has left the
    old payload (its new header may lie inside it); the header at [ptr - 16]
    is the new head of the free list and its [next] field holds the previous
    head.  Compared with [w1], only those [s] bytes and that [next] field
    are written. *)
Theorem realloc_grow_copies_and_releases (mmap_result p size q : Z)
        (w w1 : state) :
  let s := read64 (mem w) (p - sizeof_header_s + off_size) in
  p <> NULL -> heap_ok w -> 0 < size < 2 ^ 63 -> header_in_heap w p ->
  word (free_list_head w) -> s < size ->
  malloc mmap_result size w = Ret q w1 -> q <> NULL ->
  s = 0 \/ (mapped w1 q s = true /\ mapped w1 p s = true /\
            (q + s <= p - 8 \/ p + s <= q)) ->
  exists w',
    realloc mmap_result p size w = Ret q w' /\
    (forall i, 0 <= i < s -> mem w' (q + i) = mem w1 (p + i)) /\
    free_list_head w' = p - sizeof_header_s /\
    read64 (mem w') (p - sizeof_header_s + off_next) = free_list_head w /\
    (forall x, x < q \/ q + s <= x -> x < p - 8 \/ p <= x ->
               mem w' x = mem w1 x) /\
    free_ptr w' = free_ptr w1.
Proof.
  intros s Hp Hok Hsz [Hlo Hhi] Hhead Hlt Hm Hq Hcopy.
  pose proof Hok as (Hf & Hs & Hl & Hh & He).
  assert (Q : 2 ^ 63 = 9223372036854775808) by reflexivity.
  assert (Q' : 2 ^ 64 = 18446744073709551616) by reflexivity.
  assert (Hsz' : 0 <= size < 2 ^ 63) by lia.
  destruct (malloc_keeps_heap _ _ _ _ _ Hok Hsz' Hm)
    as (_ & K1 & K2 & K3 & _).
  unfold realloc. pose proof Hp as Hp'. apply Z.eqb_neq in Hp'. rewrite Hp'.
  replace (size =? 0) with false by (symmetry; apply Z.eqb_neq; lia).
  rewrite header_address by (unfold sizeof_header_s in *; lia).
  unfold bind at 1, load64.
  rewrite mapped_true by (unfold sizeof_header_s, off_size in *; lia).
  fold s.
  replace (size <=? s) with false by (symmetry; apply Z.leb_gt; exact Hlt).
  unfold bind at 1. rewrite Hm.
  pose proof Hq as Hq'. apply Z.eqb_neq in Hq'. rewrite Hq'. cbn [negb].
  unfold bind at 1, bind at 1.
  assert (Hfree : forall w2,
             start_ptr w2 = start_ptr w1 -> end_ptr w2 = end_ptr w1 ->
             free_list_head w2 = free_list_head w1 ->
             free p w2
             = Ret tt (set_mem (write64 (mem w2)
                                        (p - sizeof_header_s + off_next)
                                        (free_list_head w))
                               (set_free_list_head (p - sizeof_header_s) w2))).
  { intros w2 E1 E2 E3. rewrite <- K3, <- E3.
    apply free_computes; [exact Hp | lia | lia |].
    unfold header_in_heap. rewrite E1, E2, K1, K2. auto. }
  unfold memcpy.
  destruct (s =? 0) eqn:Es.
  - apply Z.eqb_eq in Es. rewrite Hfree by reflexivity.
    eexists. split; [reflexivity|].
    cbn [mem free_list_head free_ptr set_mem set_free_list_head].
    unfold sizeof_header_s, off_next in *.
    repeat split.
    + intros i Hi. lia.
    + apply read64_write64. exact Hhead.
    + intros x _ Hx. apply write64_other. lia.
  - apply Z.eqb_neq in Es. destruct Hcopy as [Hz|(M1 & M2 & Hd)];
      [contradiction|].
    rewrite M1, M2. cbn [andb].
    replace ((q + s <=? p) || (p + s <=? q)) with true.
    2: { symmetry. apply orb_true_iff. destruct Hd as [Hd|Hd].
         - left. apply Z.leb_le. lia.
         - right. apply Z.leb_le. lia. }
    rewrite Hfree by reflexivity.
    eexists. split; [reflexivity|].
    cbn [mem free_list_head free_ptr set_mem set_free_list_head].
    unfold sizeof_header_s, off_next in *.
    repeat split.
    + intros i Hi. rewrite write64_other by lia.
      replace (q <=? q + i) with true by (symmetry; apply Z.leb_le; lia).
      replace (q + i <? q + s) with true by (symmetry; apply Z.ltb_lt; lia).
      cbn [andb]. f_equal. lia.
    + apply read64_write64. exact Hhead.
    + intros x Hx1 Hx2. rewrite write64_other by lia.
      destruct (q <=? x) eqn:E1; destruct (x <? q + s) eqn:E2;
        try reflexivity.
      apply Z.leb_le in E1. apply Z.ltb_lt in E2. lia.
Qed.

(* ================================================================== *)
(** ** The digits [debug_int] prints *)

Lemma c_string_at_set (buffer : list ascii) (i : nat) (c : ascii)
      (rest : string) :
  (i < List.length buffer)%nat -> c <> NUL ->
  c_string_at buffer (S i) = Some rest ->
  c_string_at (array_set buffer i c) i = Some (String c rest).
Proof.
  intros Hi Hc Hr. rewrite c_string_at_skipn in Hr.
  rewrite c_string_at_skipn, skipn_array_set by exact Hi.
  cbn [c_string_at]. rewrite Hr.
  destruct (Ascii.eqb c NUL) eqn:E; [|reflexivity].
  apply Ascii.eqb_eq in E. contradiction.
Qed.

Lemma c_string_at_frame (b1 b2 : list ascii) (i : nat) :
  skipn i b1 = skipn i b2 -> c_string_at b1 i = c_string_at b2 i.
Proof.
  intros H. rewrite (c_string_at_skipn b1), (c_string_at_skipn b2), H.
  reflexivity.
Qed.

Lemma read_decimal_app (t : string) (c : ascii) (d : Z) :
  digit_of c = Some d ->
  forall acc v,
    read_decimal t acc = Some v ->
    read_decimal (t ++ String c EmptyString) acc = Some (10 * v + d).
Proof.
  intros Hc. induction t as [|e t IH]; intros acc v H;
    cbn [append read_decimal] in *.
  - inversion H; subst. rewrite Hc. reflexivity.
  - destruct (digit_of e); [|discriminate]. apply IH. exact H.
Qed.

Lemma digit_of_char (d : Z) :
  0 <= d <= 9 -> digit_of (char_of_Z (d + 48)) = Some d.
Proof.
  intros H. unfold digit_of, char_of_Z.
  rewrite Z.mod_small by lia.
  rewrite N_ascii_embedding by lia. rewrite Z2N.id by lia.
  replace (48 <=? d + 48) with true by (symmetry; apply Z.leb_le; lia).
  replace (d + 48 <=? 57) with true by (symmetry; apply Z.leb_le; lia).
  cbn [andb]. f_equal. lia.
Qed.

Lemma nonzero_digit_char (d : Z) :
  1 <= d <= 9 -> Ascii.eqb (char_of_Z (d + 48)) "0"%char = false.
Proof.
  intros H.
  assert (C : d = 1 \/ d = 2 \/ d = 3 \/ d = 4 \/ d = 5 \/ d = 6 \/
              d = 7 \/ d = 8 \/ d = 9) by lia.
  repeat (destruct C as [C|C]; [subst d; reflexivity|]).
  subst d; reflexivity.
Qed.

Lemma leading_zero_app (t u : string) :
  t <> EmptyString -> leading_zero (t ++ u) = leading_zero t.
Proof. destruct t; [contradiction | reflexivity]. Qed.

Lemma append_step (t : string) (c : ascii) (rest : string) :
  (t ++ String c rest)%string
  = ((t ++ String c EmptyString) ++ rest)%string.
Proof.
  induction t as [|d t IH]; cbn [append]; [reflexivity|].
  rewrite IH. reflexivity.
Qed.

(** The loop writes the decimal numeral of a value that is not negative,
    most significant digit first and with no leading zero, in front of what
    the buffer held from its starting index on; for 0 it writes nothing. *)
Lemma digits_loop_decimal (i : nat) :
  forall value buffer rest j buffer',
    0 <= value -> (i < List.length buffer)%nat ->
    c_string_at buffer i = Some rest ->
    digits_loop i value buffer = Some (j, buffer') ->
    exists t, c_string_at buffer' j = Some (t ++ rest)%string /\
              read_decimal t 0 = Some value /\
              leading_zero t = false /\
              (value = 0 -> t = EmptyString).
Proof.
  induction i as [|i IH]; intros value buffer rest j buffer' Hv Hi Hr H.
  - simpl in H. destruct (value =? 0) eqn:E; [|discriminate].
    apply Z.eqb_eq in E. inversion H; subst.
    exists EmptyString. repeat split; [exact Hr].
  - destruct (Z.eq_dec value 0) as [->|Hnz].
    + rewrite digits_loop_zero in H. inversion H; subst.
      exists EmptyString. repeat split; [exact Hr].
    + rewrite digits_loop_step in H by exact Hnz.
      pose proof (digit_char_not_NUL value) as Hc.
      assert (Hi' : (i < List.length buffer)%nat) by lia.
      pose proof (c_string_at_set buffer i _ rest Hi' Hc Hr) as Hr'.
      assert (Hq : 0 <= Z.quot value 10)
        by (Z.to_euclidean_division_equations; lia).
      assert (Hd : 0 <= Z.rem value 10 <= 9)
        by (Z.to_euclidean_division_equations; lia).
      rewrite <- (array_set_length buffer i
                    (char_of_Z (Z.rem value 10 + 48))) in Hi'.
      destruct (IH _ _ _ _ _ Hq Hi' Hr' H) as (t & Ht & Hval & Hlz & Hz).
      exists (t ++ String (char_of_Z (Z.rem value 10 + 48)) EmptyString)%string.
      split; [rewrite Ht, append_step; reflexivity|].
      split.
      { rewrite (read_decimal_app t _ _ (digit_of_char _ Hd) 0 _ Hval).
        f_equal. Z.to_euclidean_division_equations. lia. }
      split.
      { destruct (Z.eq_dec (Z.quot value 10) 0) as [Hq0|Hq0].
        - rewrite (Hz Hq0). cbn [append leading_zero].
          apply nonzero_digit_char.
          Z.to_euclidean_division_equations. lia.
        - rewrite leading_zero_app; [exact Hlz|].
          intros ->. cbn [read_decimal] in Hval. inversion Hval. lia. }
      intros Hv0. contradiction.
Qed.

(** X17.  Round trip: for a value from 0 to [10 ^ 15 - 1] the text
    [debug_int] prints is the decimal numeral of the value: every character
    is a digit, read from the left as a decimal number they give the value
    back, and the first is not 0; there is no sign and no padding.  For 0
    the text is empty. *)
Theorem debug_int_prints_decimal (stack : list ascii) (value : Z) :
  List.length stack = 16%nat -> 0 <= value < 10 ^ 15 ->
  exists text,
    debug_int_text stack value = Some text /\
    read_decimal text 0 = Some value /\
    leading_zero text = false /\
    (value = 0 -> text = EmptyString).
Proof.
  intros Hlen Hv. unfold debug_int_text.
  destruct (digits_loop_total 15 value (array_set stack 15 NUL))
    as (j & buffer & H); [lia|].
  rewrite H.
  assert (Hr : c_string_at (array_set stack 15 NUL) 15 = Some EmptyString).
  { apply c_string_at_terminator.
    - rewrite array_set_length. lia.
    - apply nth_array_set_same. lia. }
  assert (Hi : (15 < List.length (array_set stack 15 NUL))%nat)
    by (rewrite array_set_length; lia).
  destruct (digits_loop_decimal 15 value _ EmptyString j buffer
              (proj1 Hv) Hi Hr H)
    as (t & Ht & Hd & Hlz & Hz).
  exists t. rewrite Ht, append_empty_r. auto.
Qed.

(** X3.  A [malloc] that returns [NULL] on a heap that exists has changed nothing
    the allocator owns: [free_ptr], the bounds, the head of the free list
    and every byte of memory are as before; only the message has been
    printed. *)
Theorem malloc_failure_is_atomic (mmap_result size : Z) (w w' : state) :
  heap_ok w -> malloc mmap_result size w = Ret NULL w' ->
  same_allocator w w'.
Proof.
  intros (Hf & Hs & Hl & Hh & He) H.
  assert (Q : 2 ^ 63 = 9223372036854775808) by reflexivity.
  assert (Q' : 2 ^ 64 = 18446744073709551616) by reflexivity.
  eapply malloc_null_leaves_allocator; try eassumption; lia.
Qed.

(* ================================================================== *)
(** ** The properties at states that client programs reach *)

Lemma ret_state_of {A : Type} (o : outcome A) (a : A) :
  value_of o = Some a -> o = Ret a (state_of o).
Proof. destruct o; simpl; intros H; congruence. Qed.

Lemma short_list (n : nat) : (n <= 64)%nat -> (n < 2 ^ 64)%nat.
Proof.
  intros H. apply Nat.le_lt_trans with 64%nat; [exact H|].
  apply Nat.pow_gt_lin_r. lia.
Qed.

(** The property X1 at a state that client code reaches. *)
Lemma init_reserves_once_witness :
  exists w', init heap_base initial_state = Ret tt w' /\ heap_ok w'.
Proof.
  assert (H1 : free_ptr initial_state = NULL) by reflexivity.
  assert (H2 : 0 < heap_base) by reflexivity.
  assert (H3 : heap_base + HEAP_SIZE <= 2 ^ 63) by closed.
  destruct (init_reserves_once heap_base initial_state H1 H2 H3)
    as (w' & A & B & _).
  exists w'. split; assumption.
Defined.

(** The property X2 at a state that client code reaches. *)
Lemma reservation_failure_exits_witness :
  exists w',
    malloc MAP_FAILED 8 initial_state = Exit 1 w' /\
    out w' = ("malloc(8) called" ++ newline
              ++ "mmap failed!" ++ newline)%string.
Proof.
  assert (H1 : free_ptr initial_state = NULL) by reflexivity.
  assert (H2 : Z.abs (to_long 8) < 10 ^ 15) by reflexivity.
  destruct (reservation_failure_exits 8 initial_state H1 H2)
    as (w' & digits & D & A & B & _).
  exists w'. split; [exact A|].
  assert (E : digits = "8") by (vm_compute in D; congruence).
  rewrite B, E. reflexivity.
Defined.

Lemma heap_ok_fresh : heap_ok fresh_heap.
Proof. unfold heap_ok. closed. Qed.

Lemma heap_ok_one_block : heap_ok one_block.
Proof. unfold heap_ok. closed. Qed.

Lemma heap_ok_two_blocks : heap_ok two_blocks.
Proof. unfold heap_ok. closed. Qed.

Lemma heap_ok_two_blocks_written : heap_ok two_blocks_written.
Proof. unfold heap_ok. closed. Qed.

Lemma heap_ok_one_released : heap_ok one_released.
Proof. unfold heap_ok. closed. Qed.

Lemma heap_ok_two_released : heap_ok two_released.
Proof. unfold heap_ok. closed. Qed.

(** The free list of [two_released]. *)
Lemma two_released_list :
  free_list_at two_released (free_list_head two_released)
    ([(heap_base + 560, 0)] ++ (heap_base + 240, 64) :: []).
Proof. closed. Qed.

Lemma one_released_list :
  free_list_at one_released (free_list_head one_released)
    [(heap_base + 240, 64)].
Proof. closed. Qed.

(** The property X3 at a state that client code reaches. *)
Lemma malloc_failure_is_atomic_witness :
  let w' := state_of (malloc heap_base (HEAP_SIZE - 16) fresh_heap) in
  malloc heap_base (HEAP_SIZE - 16) fresh_heap = Ret NULL w' /\
  same_allocator fresh_heap w'.
Proof.
  intros w'.
  assert (H : malloc heap_base (HEAP_SIZE - 16) fresh_heap = Ret NULL w')
    by (apply ret_state_of; closed).
  split; [exact H|].
  exact (malloc_failure_is_atomic heap_base (HEAP_SIZE - 16) fresh_heap w'
           heap_ok_fresh H).
Defined.

(** The property X4 at a state that client code reaches. *)
Lemma malloc_nothing_fits_no_space_witness :
  exists w',
    malloc heap_base (HEAP_SIZE - 360) two_released = Ret NULL w' /\
    same_allocator two_released w'.
Proof.
  apply (malloc_nothing_fits_no_space heap_base (HEAP_SIZE - 360)
           two_released [(heap_base + 560, 0); (heap_base + 240, 64)]).
  - exact heap_ok_two_released.
  - closed.
  - exact two_released_list.
  - repeat constructor.
  - apply short_list; cbn [List.length app]; lia.
  - closed.
Defined.

(** The property X5 at a state that client code reaches. *)
Lemma malloc_nothing_fits_carves_witness :
  exists w',
    malloc heap_base 100 two_released
    = Ret (free_ptr two_released + sizeof_header_s * sizeof_header_s) w' /\
    read64 (mem w') (free_ptr two_released + off_size) = 100 /\
    free_ptr w' = free_ptr two_released + 100 + sizeof_header_s.
Proof.
  destruct (malloc_nothing_fits_carves heap_base 100 two_released
              [(heap_base + 560, 0); (heap_base + 240, 64)])
    as (w' & A & B & _ & C & _).
  - exact heap_ok_two_released.
  - closed.
  - exact two_released_list.
  - repeat constructor.
  - apply short_list; cbn [List.length app]; lia.
  - closed.
  - exists w'. repeat split; assumption.
Defined.

(** The property X6 at a state that client code reaches. *)
Lemma malloc_first_fit_behind_head_witness :
  exists w',
    malloc heap_base 64 two_released
    = Ret (heap_base + 240 + sizeof_header_s * sizeof_header_s) w' /\
    free_list_at w' (free_list_head w') [(heap_base + 560, 0)].
Proof.
  destruct (malloc_first_fit_behind_head heap_base 64 two_released
              (heap_base + 560, 0) [] (heap_base + 240) 64 [])
    as (w' & A & _ & _ & _ & _ & _ & B).
  - exact heap_ok_two_released.
  - closed.
  - exact two_released_list.
  - repeat constructor.
  - closed.
  - apply short_list; cbn [List.length app]; lia.
  - exists w'. split; [exact A|]. apply B.
    cbn [app map fst all_apart]. unfold apart.
    split; [constructor; [right; closed | constructor]|].
    split; [constructor | exact I].
Defined.

(** The property X7 at a state that client code reaches. *)
Lemma free_pushes_onto_list_witness :
  exists w',
    free (heap_base + 576) one_released = Ret tt w' /\
    free_list_at w' (free_list_head w')
      [(heap_base + 560, 0); (heap_base + 240, 64)].
Proof.
  destruct (free_pushes_onto_list one_released (heap_base + 576)
              [(heap_base + 240, 64)])
    as (w' & A & B).
  - closed.
  - closed.
  - closed.
  - unfold header_in_heap. closed.
  - exact one_released_list.
  - constructor; [unfold apart; right; closed | constructor].
  - exists w'. split; [exact A|].
    replace 0 with (read64 (mem one_released)
                      (heap_base + 576 - sizeof_header_s + off_size))
      by closed.
    exact B.
Defined.

(** The property X8 at a state that client code reaches. *)
Lemma double_free_then_malloc_diverges_witness :
  exists w2,
    (free (heap_base + 256) ;; free (heap_base + 256)) one_block
    = Ret tt w2 /\
    free_list_head w2 = heap_base + 240 /\
    read64 (mem w2) (heap_base + 240 + off_next) = heap_base + 240 /\
    (free (heap_base + 256) ;; free (heap_base + 256) ;;
     malloc heap_base 8) one_block = Diverge.
Proof.
  destruct (double_free_then_malloc_diverges heap_base 8 one_block
              (heap_base + 256))
    as (w2 & A & B & C & _ & _ & D).
  - closed.
  - exact heap_ok_one_block.
  - unfold header_in_heap. closed.
  - closed.
  - closed.
  - exists w2.
    change (heap_base + 240) with (heap_base + 256 - sizeof_header_s).
    exact (conj A (conj B (conj C D))).
Defined.

(** The property X9 at a state that client code reaches. *)
Lemma heap_bounds_invariant_witness :
  heap_kept fresh_heap (state_of (malloc heap_base 8 fresh_heap)) /\
  heap_kept one_block (state_of (free (heap_base + 256) one_block)) /\
  heap_kept fresh_heap (state_of (calloc heap_base 4 6 fresh_heap)) /\
  heap_kept two_blocks
    (state_of (realloc heap_base (heap_base + 256) 300 two_blocks)).
Proof.
  destruct (heap_bounds_invariant heap_base fresh_heap heap_ok_fresh)
    as (A & _ & C & _).
  destruct (heap_bounds_invariant heap_base one_block heap_ok_one_block)
    as (_ & B & _ & _).
  destruct (heap_bounds_invariant heap_base two_blocks heap_ok_two_blocks)
    as (_ & _ & _ & D).
  split; [|split; [|split]].
  - apply (A 8 (heap_base + 256)); [closed|].
    apply ret_state_of. closed.
  - apply (B (heap_base + 256) tt). apply ret_state_of. closed.
  - apply (C 4 6 (heap_base + 256)); [closed|].
    apply ret_state_of. closed.
  - apply (D (heap_base + 256) 300 (heap_base + 576)); [closed|].
    apply ret_state_of. closed.
Defined.

(** The property X10 at a state that client code reaches. *)
Lemma calloc_zero_fills_new_block_witness :
  mem dirty_heap (heap_base + 260) = 170 /\
  exists w',
    calloc heap_base 4 6 dirty_heap = Ret (heap_base + 256) w' /\
    (forall x, heap_base + 256 <= x < heap_base + 256 + 24 ->
               mem w' x = 0) /\
    mem w' (heap_base + 260) = 0.
Proof.
  split; [closed|].
  destruct (calloc_zero_fills_new_block heap_base 4 6 dirty_heap [])
    as (w' & A & B & _).
  - unfold heap_ok. closed.
  - closed.
  - closed.
  - constructor.
  - apply short_list; cbn [List.length app]; lia.
  - closed.
  - exists w'. split; [exact A|]. split; [exact B|].
    apply B. split; closed.
Defined.

(** The property X11 at a state that client code reaches. *)
Lemma calloc_past_end_undefined_witness :
  calloc heap_base 1 (HEAP_SIZE - 48) fresh_heap = Undefined.
Proof.
  apply (calloc_past_end_undefined heap_base 1 (HEAP_SIZE - 48) fresh_heap
           []).
  - exact heap_ok_fresh.
  - closed.
  - closed.
  - constructor.
  - apply short_list; cbn [List.length app]; lia.
  - closed.
  - closed.
Defined.

(** The property X12 at a state that client code reaches. *)
Lemma realloc_shrink_branch_witness :
  exists w',
    realloc heap_base (heap_base + 256) 8 two_blocks_written
    = Ret (heap_base + 256) w' /\
    mem two_blocks_written (heap_base + 256) = 170 /\
    mem w' (heap_base + 256) = 0.
Proof.
  destruct (realloc_shrink_branch heap_base (heap_base + 256) 8
              two_blocks_written)
    as (w' & A & B & _).
  - closed.
  - closed.
  - closed.
  - closed.
  - unfold header_in_heap. closed.
  - closed.
  - closed.
  - exists w'. split; [exact A|]. split; [closed|].
    replace (heap_base + 256) with (heap_base + 256 - 1 + 1) at 1 by closed.
    rewrite B by (split; closed). closed.
Defined.

(** The property X13 at a state that client code reaches. *)
Lemma realloc_failure_keeps_block_witness :
  let w1 := state_of (malloc heap_base HEAP_SIZE one_block) in
  realloc heap_base (heap_base + 256) HEAP_SIZE one_block = Ret NULL w1 /\
  same_allocator one_block w1.
Proof.
  intros w1.
  apply realloc_failure_keeps_block.
  - closed.
  - closed.
  - exact heap_ok_one_block.
  - unfold header_in_heap. closed.
  - closed.
  - apply ret_state_of. closed.
Defined.

(** The property X14 at a state that client code reaches. *)
Lemma realloc_grow_copies_and_releases_witness :
  exists w',
    realloc heap_base (heap_base + 256) 300 two_blocks_written
    = Ret (heap_base + 576) w' /\
    mem w' (heap_base + 576) = 170 /\
    free_list_head w' = heap_base + 240.
Proof.
  set (w1 := state_of (malloc heap_base 300 two_blocks_written)).
  destruct (realloc_grow_copies_and_releases heap_base (heap_base + 256) 300
              (heap_base + 576) two_blocks_written w1)
    as (w' & A & B & C & _).
  - closed.
  - exact heap_ok_two_blocks_written.
  - closed.
  - unfold header_in_heap. closed.
  - unfold word. closed.
  - closed.
  - apply ret_state_of. closed.
  - closed.
  - right. split; [closed|]. split; [closed|]. right. closed.
  - exists w'. split; [exact A|]. split.
    + replace (heap_base + 576) with (heap_base + 576 + 0) at 1 by closed.
      rewrite B by (split; closed). closed.
    + rewrite C. closed.
Defined.

(** The property X15 at a state that client code reaches. *)
Lemma debug_int_defined_iff_witness :
  debug_int_text blank_stack (10 ^ 15) = None /\
  debug_int_text blank_stack (10 ^ 15 - 1) <> None.
Proof.
  destruct (debug_int_defined_iff blank_stack (10 ^ 15) eq_refl) as [_ A].
  destruct (debug_int_defined_iff blank_stack (10 ^ 15 - 1) eq_refl)
    as [B _].
  split.
  - apply A. closed.
  - intros H. apply B in H. vm_compute in H. apply H. reflexivity.
Defined.

(** The property X16 at a state that client code reaches. *)
Lemma malloc_huge_request_undefined_witness :
  malloc heap_base (10 ^ 15) fresh_heap = Undefined.
Proof.
  apply malloc_huge_request_undefined. closed.
Defined.

(** The property X17 at a state that client code reaches. *)
Lemma debug_int_prints_decimal_witness :
  debug_int_text blank_stack 1234567 = Some "1234567" /\
  exists text,
    debug_int_text blank_stack 1234567 = Some text /\
    read_decimal text 0 = Some 1234567 /\
    leading_zero text = false /\
    (1234567 = 0 -> text = EmptyString).
Proof.
  split; [reflexivity|].
  apply debug_int_prints_decimal; [reflexivity | closed].
Defined.

(** The property X18 at a state that client code reaches. *)
Lemma debug_int_text_stack_independent_witness :
  debug_int_text blank_stack 42
  = debug_int_text (repeat "a"%char 16) 42.
Proof.
  apply debug_int_text_stack_independent; reflexivity.
Defined.
